(** * minikeystore: the storage engine and its sorted key index

    A shallow embedding of package [storage]: the [Item] variant, the
    [Storage] state (mapping plus sorted index), the index maintenance
    performed by [updateIndex], the type-checked accessor [checkkey] and the
    public operations built on them.

    Go strings are byte strings, compared bytewise: they are Rocq [string]s
    ordered by [String.compare].  A Go map is a [gmap]; a slice or map that
    may be [nil] is an [option].  The mutex is not modelled: every operation
    is a function from the state before to the state after. *)

From Stdlib Require Import ZArith Ascii String DecimalString.
From stdpp Require Import gmap strings list sorting.

Set Warnings "-register-all,-clear-no-such-hyp".
Local Open Scope string_scope.
Local Open Scope list_scope.
Local Open Scope nat_scope.

(** ** Ordering of Go strings *)

(** [a < b] on Go strings. *)
Definition str_lt (a b : string) : Prop := String.ltb a b = true.

(** [a >= b] on Go strings. *)
Definition str_geb (a b : string) : bool := negb (String.ltb a b).

(** ** Package sort *)

(** The loop of [sort.Search]: [i, j := 0, n; for i < j { h := (i+j)/2;
    if !f(h) { i = h + 1 } else { j = h } }; return i].  Each turn shrinks
    [j - i], so [n] turns of fuel are never exhausted. *)
Fixpoint search_loop (fuel : nat) (f : nat → bool) (i j : nat) : nat :=
  match fuel with
  | O => i
  | S fuel' =>
      if i <? j then
        let h := (i + j) `div` 2 in
        if negb (f h) then search_loop fuel' f (h + 1) j
        else search_loop fuel' f i h
      else i
  end.

Definition sort_Search (n : nat) (f : nat → bool) : nat :=
  search_loop n f 0 n.

(** [sort.StringSlice.Search]: [sort.Search(len(a), func(i) { a[i] >= x })].
    The probe is always in range; out of range it answers as [f(n)] does. *)
Definition Search (a : list string) (x : string) : nat :=
  sort_Search (length a)
    (λ i, match a !! i with Some y => str_geb y x | None => true end).

(** ** Package strings *)

(** [strings.Split(s, sep)] for a one-byte separator. *)
Fixpoint Split (s : string) (sep : ascii) : list string :=
  match s with
  | "" => [""]
  | String c s' =>
      if Ascii.eqb c sep then "" :: Split s' sep
      else match Split s' sep with
           | p :: ps => String c p :: ps
           | [] => [String c ""]
           end
  end.

(** The pattern holds a wildcard byte. *)
Definition has_star (s : string) : Prop :=
  In "*"%char (list_ascii_of_string s).

(** ** Glob patterns *)

(** Modelled from the spec: the matcher [glob.Glob] of the imported package
    go-glob is not part of the sources.  The pattern is matched against the
    whole key, byte for byte; a [*] stands for any run of zero or more
    bytes. *)
Fixpoint Glob (pattern subj : string) : bool :=
  match pattern with
  | "" => match subj with "" => true | _ => false end
  | String c p =>
      if Ascii.eqb c "*" then
        (fix skip (s : string) : bool :=
           Glob p s || match s with "" => false | String _ s' => skip s' end)
          subj
      else
        match subj with
        | String d s' => Ascii.eqb c d && Glob p s'
        | "" => false
        end
  end.

(** What it is for a key to match a pattern, said without an algorithm. *)
Inductive matches : string → string → Prop :=
  | matches_nil : matches "" ""
  | matches_char c p s :
      c ≠ "*"%char → matches p s → matches (String c p) (String c s)
  | matches_star p w s :
      matches p s → matches (String "*" p) (w +:+ s).

(** ** Dynamic values, package fmt and package encoding/json *)

(** The values a caller hands to [Set] as [interface{}]: the three native
    shapes, what the JSON decoder produces ([nil], booleans, strings,
    [[]interface{}], [map[string]interface{}]), and integers.  [None] is a
    [nil] slice or map. *)
Inductive Value :=
  | VNil
  | VBool (b : bool)
  | VInt (z : Z)
  | VString (s : string)
  | VStrings (l : option (list string))
  | VStringMap (m : option (gmap string string))
  | VSlice (l : option (list Value))
  | VMap (m : option (gmap string Value)).

Definition join (sep : string) (l : list string) : string :=
  match l with
  | [] => ""
  | x :: r => foldl (λ acc y, acc +:+ sep +:+ y) x r
  end.

Definition itoa (z : Z) : string := NilZero.string_of_int (Z.to_int z).

(** Entries of a map in the order fmt prints them: by key. *)
Definition sorted_entries (m : gmap string string) : list string :=
  (λ kv, kv.1 +:+ ":" +:+ kv.2)
    <$> merge_sort (λ a b, String.le a.1 b.1) (map_to_list m).

(** [fmt.Sprintf("%s", v)].  A string is printed as it is; a value with no
    string form is printed with fmt's bad-verb marker. *)
Fixpoint Sprintf_s (v : Value) : string :=
  match v with
  | VNil => "%!s(<nil>)"
  | VBool b => "%!s(bool=" +:+ (if b then "true" else "false") +:+ ")"
  | VInt z => "%!s(int=" +:+ itoa z +:+ ")"
  | VString s => s
  | VStrings l => "[" +:+ join " " (default [] l) +:+ "]"
  | VStringMap m => "map[" +:+ join " " (sorted_entries (default ∅ m)) +:+ "]"
  | VSlice None => "[]"
  | VSlice (Some l) => "[" +:+ join " " (Sprintf_s <$> l) +:+ "]"
  | VMap None => "map[]"
  | VMap (Some m) =>
      "map[" +:+ join " " (sorted_entries (Sprintf_s <$> m)) +:+ "]"
  end.

(** The JSON text written by [json.Marshal], kept as the document it
    denotes: two texts are equal exactly when their documents are.  An
    object is written with its keys sorted, so it is determined by its
    finite map. *)
Inductive JSON :=
  | JNull
  | JBool (b : bool)
  | JNumber (z : Z)
  | JString (s : string)
  | JArray (l : list JSON)
  | JObject (m : gmap string JSON).

(** [json.Marshal(v)]: a [nil] slice or map is written [null]. *)
Fixpoint Marshal (v : Value) : JSON :=
  match v with
  | VNil => JNull
  | VBool b => JBool b
  | VInt z => JNumber z
  | VString s => JString s
  | VStrings None => JNull
  | VStrings (Some l) => JArray (JString <$> l)
  | VStringMap None => JNull
  | VStringMap (Some m) => JObject (JString <$> m)
  | VSlice None => JNull
  | VSlice (Some l) => JArray (Marshal <$> l)
  | VMap None => JNull
  | VMap (Some m) => JObject (Marshal <$> m)
  end.

(** ** Errors and outcomes *)

(** An error is the message [fmt.Errorf] builds. *)
Definition error : Type := string.

(** [checkkey]: the key is absent and is not to be created. *)
Definition KeyNotFound (key : string) : error :=
  "key " +:+ key +:+ " does not exist".
(** [Get]: the key is absent. *)
Definition ItemNotFound : error := "item does not exist".
(** [checkkey]: the item's tag is not the expected one. *)
Definition TypeMismatch (actual expected : string) : error :=
  "type " +:+ actual +:+ " is not " +:+ expected.
Definition EmptyList : error := "list is empty".
Definition MapKeyNotFound (mkey : string) : error :=
  "map key " +:+ mkey +:+ " does not exists".
(** [Get]: the stored tag is none of the three. *)
Definition UnknownType : error := "unknown type".
(** [Set]: the value has none of the accepted shapes. *)
Definition UnsupportedValueType : error := "unknown type".

(** A Go result pair [(value, error)]. *)
Inductive result (A : Type) :=
  | Ok (a : A)
  | Err (e : error).
Arguments Ok {A} a.
Arguments Err {A} e.

(** A call that either returns or stops in a run-time panic. *)
Inductive outcome (A : Type) :=
  | Ret (a : A)
  | Panic.
Arguments Ret {A} a.
Arguments Panic {A}.

(** ** The storage engine *)

Record Item := mkItem {
  stringValue : string;
  listValue : option (list string);
  mapValue : option (gmap string string);
  Type_ : string
}.

Record Storage := mkStorage {
  items : gmap string Item;
  index : list string
}.

Definition New : Storage := mkStorage ∅ [].

Definition set_listValue (i : Item) (l : option (list string)) : Item :=
  mkItem (stringValue i) l (mapValue i) (Type_ i).
Definition set_mapValue (i : Item) (m : option (gmap string string)) : Item :=
  mkItem (stringValue i) (listValue i) m (Type_ i).

(** [updateIndex] on the index slice.  Insertion is
    [append(index[:i], append([]string{key}, index[i:]...)...)], removal is
    [append(index[:i], index[i+1:]...)].  [Search] never answers beyond
    [len(index)], so after the test [i == len(index)] the read [index[i]] is
    in range. *)
Definition updateIndex (idx : list string) (key : string) (add : bool)
    : list string :=
  let i := Search idx key in
  if add then
    if decide (i = length idx) then idx ++ [key]
    else match idx !! i with
         | Some x =>
             if decide (x = key) then idx
             else take i idx ++ key :: drop i idx
         | None => idx
         end
  else
    if decide (i = length idx) then idx
    else match idx !! i with
         | Some x =>
             if decide (x ≠ key) then idx
             else take i idx ++ drop (S i) idx
         | None => idx
         end.

Definition checkkey (s : Storage) (key expectedType : string) (create : bool)
    : Storage * result Item :=
  match items s !! key with
  | None =>
      if create then
        let i := mkItem "" None None expectedType in
        (mkStorage (<[key := i]> (items s)) (updateIndex (index s) key true),
         Ok i)
      else (s, Err (KeyNotFound key))
  | Some i =>
      if decide (Type_ i ≠ expectedType)
      then (s, Err (TypeMismatch (Type_ i) expectedType))
      else (s, Ok i)
  end.

Definition Get (s : Storage) (key : string) : result JSON :=
  match items s !! key with
  | None => Err ItemNotFound
  | Some i =>
      if decide (Type_ i = "string") then Ok (Marshal (VString (stringValue i)))
      else if decide (Type_ i = "list") then Ok (Marshal (VStrings (listValue i)))
      else if decide (Type_ i = "map") then Ok (Marshal (VStringMap (mapValue i)))
      else Err UnknownType
  end.

(** The type switch of [Set]: the item built from the value, or nothing for
    the [default] case. *)
Definition item_of_value (value : Value) : option Item :=
  match value with
  | VString v => Some (mkItem v None None "string")
  | VStrings v => Some (mkItem "" v None "list")
  | VStringMap v => Some (mkItem "" None v "map")
  | VSlice v => Some (mkItem "" (Some (Sprintf_s <$> default [] v)) None "list")
  | VMap v => Some (mkItem "" None (Some (Sprintf_s <$> default ∅ v)) "map")
  | _ => None
  end.

Definition Set_ (s : Storage) (key : string) (value : Value)
    : Storage * result unit :=
  match item_of_value value with
  | None => (s, Err UnsupportedValueType)
  | Some i =>
      let idx := match items s !! key with
                 | None => updateIndex (index s) key true
                 | Some _ => index s
                 end in
      (mkStorage (<[key := i]> (items s)) idx, Ok ())
  end.

Definition Delete (s : Storage) (key : string) : Storage :=
  let idx := match items s !! key with
             | Some _ => updateIndex (index s) key false
             | None => index s
             end in
  mkStorage (delete key (items s)) idx.

Definition Append (s : Storage) (key value : string) : Storage * result unit :=
  match checkkey s key "list" true with
  | (s', Err e) => (s', Err e)
  | (s', Ok i) =>
      let l := default [] (listValue i) in
      let i' := set_listValue i (Some (l ++ [value])) in
      (mkStorage (<[key := i']> (items s')) (index s'), Ok ())
  end.

(** The item is reached through its pointer, so the shortened slice is the
    one the mapping holds afterwards. *)
Definition Pop (s : Storage) (key : string) : Storage * result string :=
  match checkkey s key "list" false with
  | (s', Err e) => (s', Err e)
  | (s', Ok i) =>
      let l := default [] (listValue i) in
      match l !! (length l - 1) with
      | None => (s', Err EmptyList)
      | Some value =>
          let i' := set_listValue i (Some (take (length l - 1) l)) in
          (mkStorage (<[key := i']> (items s')) (index s'), Ok value)
      end
  end.

Definition MapGet (s : Storage) (key mkey : string) : Storage * result string :=
  match checkkey s key "map" false with
  | (s', Err e) => (s', Err e)
  | (s', Ok i) =>
      match mapValue i with
      | None => (s', Err (MapKeyNotFound mkey))
      | Some m =>
          match m !! mkey with
          | Some val => (s', Ok val)
          | None => (s', Err (MapKeyNotFound mkey))
          end
      end
  end.

Definition MapSet (s : Storage) (key mkey value : string)
    : Storage * result unit :=
  match checkkey s key "map" true with
  | (s', Err e) => (s', Err e)
  | (s', Ok i) =>
      let m := default ∅ (mapValue i) in
      let i' := set_mapValue i (Some (<[mkey := value]> m)) in
      (mkStorage (<[key := i']> (items s')) (index s'), Ok ())
  end.

Definition MapDelete (s : Storage) (key mkey : string)
    : Storage * result unit :=
  match checkkey s key "map" false with
  | (s', Err e) => (s', Err e)
  | (s', Ok i) =>
      let m := default ∅ (mapValue i) in
      let i' := set_mapValue i (Some (delete mkey m)) in
      (mkStorage (<[key := i']> (items s')) (index s'), Ok ())
  end.

(** [GetIndex]: the read [s.index[index]] of the exact-match branch is not
    guarded, so it panics when [Search] answers [len(s.index)]. *)
Definition GetIndex (s : Storage) (search : string) : outcome (list string) :=
  if decide (search = "*") then Ret (index s)
  else if decide (length (Split search "*") = 1) then
    let i := Search (index s) search in
    match index s !! i with
    | None => Panic
    | Some x => if decide (x ≠ search) then Ret [] else Ret [x]
    end
  else Ret (filter (λ val, Glob search val = true) (index s)).

(** ** Sequences of public operations *)

Inductive Op :=
  | OpSet (key : string) (value : Value)
  | OpDelete (key : string)
  | OpAppend (key value : string)
  | OpPop (key : string)
  | OpMapGet (key mkey : string)
  | OpMapSet (key mkey value : string)
  | OpMapDelete (key mkey : string)
  | OpGet (key : string)
  | OpGetIndex (search : string).

(** The state an operation leaves behind.  [Get] and [GetIndex] only read;
    a panic of [GetIndex] unwinds without having written anything. *)
Definition step (s : Storage) (o : Op) : Storage :=
  match o with
  | OpSet key value => (Set_ s key value).1
  | OpDelete key => Delete s key
  | OpAppend key value => (Append s key value).1
  | OpPop key => (Pop s key).1
  | OpMapGet key mkey => (MapGet s key mkey).1
  | OpMapSet key mkey value => (MapSet s key mkey value).1
  | OpMapDelete key mkey => (MapDelete s key mkey).1
  | OpGet _ => s
  | OpGetIndex _ => s
  end.

Definition run (ops : list Op) : Storage := foldl step New ops.

(** The index invariant: strictly ascending (hence free of duplicates) and
    holding exactly the keys of the mapping. *)
Definition index_ok (s : Storage) : Prop :=
  StronglySorted str_lt (index s) ∧
  NoDup (index s) ∧
  ∀ k, k ∈ index s ↔ is_Some (items s !! k).

(** ** Shapes of values *)

(** The value is one of the five cases of the type switch of [Set]: a
    string, a sequence or a mapping. *)
Definition accepted_shape (v : Value) : bool :=
  match v with
  | VString _ | VStrings _ | VStringMap _ | VSlice _ | VMap _ => true
  | _ => false
  end.

Definition is_string (v : Value) : bool :=
  match v with VString _ => true | _ => false end.

(** The value is a string, a [[]string], a [map[string]string], or a
    non-nil [[]interface{}] or [map[string]interface{}] all of whose elements
    are strings. *)
Definition holds_strings (v : Value) : Prop :=
  match v with
  | VString _ | VStrings _ | VStringMap _ => True
  | VSlice (Some l) => Forall (λ e, is_string e = true) l
  | VMap (Some m) => map_Forall (λ _ e, is_string e = true) m
  | _ => False
  end.

#[local] Instance holds_strings_dec v : Decision (holds_strings v).
Proof. destruct v as [| | | | | |[l|]|[m|]]; simpl; apply _. Defined.

#[local] Instance str_lt_dec : RelDecision str_lt.
Proof. intros a b. unfold str_lt. apply _. Defined.
(** ** Items whose payload fits their tag *)

(** The tag is one of the three, and only the payload it names is in use. *)
Definition item_ok (i : Item) : Prop :=
  (Type_ i = "string" ∧ listValue i = None ∧ mapValue i = None) ∨
  (Type_ i = "list" ∧ stringValue i = "" ∧ mapValue i = None) ∨
  (Type_ i = "map" ∧ stringValue i = "" ∧ listValue i = None).

Definition items_ok (s : Storage) : Prop :=
  map_Forall (λ _ i, item_ok i) (items s).

(** ** A client that empties a list *)

(** [n] calls of [Pop] on the same key, with their results in order. *)
Fixpoint pops (n : nat) (s : Storage) (key : string)
    : Storage * list (result string) :=
  match n with
  | O => (s, [])
  | S n' =>
      let '(s1, r) := Pop s key in
      let '(s2, rs) := pops n' s1 key in
      (s2, r :: rs)
  end.

(** ** Package server: the command handler *)

(** The decoded body of a request.  A body that does not decode leaves the
    zero request: empty strings and a [nil] value. *)
Record Request := mkRequest {
  reqCmd : string;
  reqKey : string;
  reqValue : Value
}.

(** The reply: the error text and the raw JSON of the value, [None] when
    it was never set. *)
Record Response := mkResponse {
  respError : string;
  respValue : option JSON
}.

Definition StatusOK : nat := 200.
Definition StatusBadRequest : nat := 400.

(** The end of [Cmd]: [if err != nil { r.Error = err.Error(); rcode = 400 }]
    and the reply [c.JSON(rcode, r)].  The value is set only on the paths
    that have no error. *)
Definition reply {A} (s : Storage) (r : result A) (value : A → option JSON)
    : outcome (Storage * (nat * Response)) :=
  match r with
  | Ok a => Ret (s, (StatusOK, mkResponse "" (value a)))
  | Err e => Ret (s, (StatusBadRequest, mkResponse e None))
  end.

(** [Server.Cmd] on the path parameter [key] and the decoded request.  The
    store behind the [store] interface is the storage engine. *)
Definition Cmd (s : Storage) (key : string) (request : Request)
    : outcome (Storage * (nat * Response)) :=
  let cmd := reqCmd request in
  let checked :=
    if decide (cmd = "append" ∨ cmd = "mapset") then
      match reqValue request with
      | VString v => Some v
      | _ => None
      end
    else Some "" in
  match checked with
  | None =>
      Ret (s, (StatusBadRequest, mkResponse "value must be a string" None))
  | Some value =>
      if decide (cmd = "append") then
        let '(s', r) := Append s key value in reply s' r (λ _, None)
      else if decide (cmd = "pop") then
        let '(s', r) := Pop s key in
        reply s' r (λ res, Some (Marshal (VString res)))
      else if decide (cmd = "mapget") then
        let '(s', r) := MapGet s key (reqKey request) in
        reply s' r (λ res, Some (Marshal (VString res)))
      else if decide (cmd = "mapset") then
        let '(s', r) := MapSet s key (reqKey request) value in
        reply s' r (λ _, None)
      else if decide (cmd = "mapdelete") then
        let '(s', r) := MapDelete s key (reqKey request) in
        reply s' r (λ _, None)
      else if decide (cmd = "index") then
        match GetIndex s (reqKey request) with
        | Panic => Panic
        | Ret idx =>
            reply s (Ok idx) (λ l, Some (Marshal (VStrings (Some l))))
        end
      else reply s (Err "no command specified" : result unit) (λ _, None)
  end.

(** * Facts about the ordering of strings *)

Section string_order.
Implicit Types a b c : string.

Lemma compare_refl a : String.compare a a = Eq.
Proof.
  induction a as [|ch a IH]; simpl; [done|].
  unfold Ascii.compare. by rewrite N.compare_refl.
Qed.

Lemma str_lt_le_ne a b : str_lt a b ↔ String.le a b ∧ a ≠ b.
Proof.
  unfold str_lt, String.le, String.ltb, String.leb.
  destruct (String.compare a b) eqn:Hc; simpl.
  - apply String.compare_eq_iff in Hc. split; [done|]. by intros [_ ?].
  - split; [|done]. intros _. split; [done|].
    intros ->. by rewrite compare_refl in Hc.
  - split; [done|]. by intros [? _].
Qed.

Lemma str_lt_irrefl a : ¬ str_lt a a.
Proof. rewrite str_lt_le_ne. by intros [_ ?]. Qed.

Lemma str_lt_trans a b c : str_lt a b → str_lt b c → str_lt a c.
Proof.
  rewrite !str_lt_le_ne. intros [Hab Hne] [Hbc Hne'].
  split; [by etrans|].
  intros ->. apply Hne. by apply (anti_symm String.le).
Qed.

Lemma str_geb_false a b : str_geb a b = false ↔ str_lt a b.
Proof. unfold str_geb, str_lt. by destruct (String.ltb a b). Qed.

Lemma str_geb_true a b : str_geb a b = true ↔ String.le b a.
Proof.
  unfold str_geb, String.le, String.ltb, String.leb.
  rewrite (String.compare_antisym b a).
  by destruct (String.compare a b).
Qed.

Lemma str_geb_ne_lt a b : str_geb a b = true → a ≠ b → str_lt b a.
Proof. rewrite str_geb_true, str_lt_le_ne. auto. Qed.

Lemma str_lt_not_geb a b : str_lt a b → str_geb b a = true.
Proof. rewrite str_geb_true, str_lt_le_ne. by intros [? _]. Qed.
End string_order.

#[local] Instance str_lt_transitive : Transitive str_lt := str_lt_trans.

(** * The binary search *)

Lemma midpoint_bounds i j : i < j → i ≤ (i + j) `div` 2 < j.
Proof.
  intros Hlt. split.
  - apply Nat.div_le_lower_bound; lia.
  - apply Nat.Div0.div_lt_upper_bound; lia.
Qed.

Section search.
Variable f : nat → bool.

Lemma search_loop_S fuel i j :
  search_loop (S fuel) f i j =
    if i <? j then
      if negb (f ((i + j) `div` 2))
      then search_loop fuel f ((i + j) `div` 2 + 1) j
      else search_loop fuel f i ((i + j) `div` 2)
    else i.
Proof. done. Qed.

Lemma search_loop_bounds fuel i j :
  i ≤ j → i ≤ search_loop fuel f i j ≤ j.
Proof.
  revert i j. induction fuel as [|fuel IH]; intros i j Hij; [simpl; lia|].
  rewrite search_loop_S.
  destruct (Nat.ltb_spec i j) as [Hlt|?]; [|lia].
  pose proof (midpoint_bounds i j Hlt) as Hh.
  set (h := (i + j) `div` 2) in *.
  destruct (f h); simpl.
  - pose proof (IH i h ltac:(lia)). lia.
  - pose proof (IH (h + 1) j ltac:(lia)). lia.
Qed.

(** With [f] false then true over [0, n), the loop ends on the first index
    where it is true. *)
Lemma search_loop_spec n fuel i j :
  (∀ k k', k ≤ k' < n → f k = true → f k' = true) →
  j - i ≤ fuel → i ≤ j ≤ n →
  (∀ k, k < i → f k = false) →
  (∀ k, j ≤ k < n → f k = true) →
  let r := search_loop fuel f i j in
  (∀ k, k < r → f k = false) ∧ (∀ k, r ≤ k < n → f k = true).
Proof.
  intros Hmono. revert i j.
  induction fuel as [|fuel IH]; intros i j Hfuel Hij Hlo Hhi.
  { split; [done|]. intros k ?. apply Hhi. simpl in *. lia. }
  rewrite search_loop_S.
  destruct (Nat.ltb_spec i j) as [Hlt|?].
  2:{ split; [done|]. intros k ?. apply Hhi. lia. }
  pose proof (midpoint_bounds i j Hlt) as Hh.
  set (h := (i + j) `div` 2) in *.
  destruct (f h) eqn:Hf; simpl.
  - apply IH; [lia|lia|done|].
    intros k ?. apply (Hmono h); [lia|done].
  - apply IH; [lia|lia| |done].
    intros k ?. destruct (f k) eqn:Hk; [|done].
    rewrite <-Hf. symmetry. apply (Hmono k); [lia|done].
Qed.
End search.

Lemma Search_le a x : Search a x ≤ length a.
Proof.
  unfold Search, sort_Search.
  pose proof (search_loop_bounds
    (λ i, match a !! i with Some y => str_geb y x | None => true end)
    (length a) 0 (length a)). lia.
Qed.

(** On an ascending slice, [Search] splits it into the keys below [x] and
    the keys not below it. *)
Lemma Search_sorted a x :
  StronglySorted str_lt a →
  Forall (λ y, str_lt y x) (take (Search a x) a) ∧
  Forall (λ y, str_geb y x = true) (drop (Search a x) a).
Proof.
  intros Hs. unfold Search, sort_Search.
  set (f := λ i, match a !! i with Some y => str_geb y x | None => true end).
  destruct (search_loop_spec f (length a) (length a) 0 (length a))
    as [Hlo Hhi]; [|lia|lia|lia|lia|].
  { intros k k' [Hk Hk'] Hfk. unfold f in *.
    destruct (lookup_lt_is_Some_2 a k' Hk') as [y' Hy']. rewrite Hy'.
    destruct (decide (k = k')) as [->|Hne]; [by rewrite Hy' in Hfk|].
    destruct (lookup_lt_is_Some_2 a k) as [y Hy]; [lia|]. rewrite Hy in Hfk.
    assert (str_lt y y') as Hlt.
    { apply (take_drop_middle a k' y') in Hy' as Ha. rewrite <-Ha in Hs.
      apply StronglySorted_app in Hs as (Hs & _ & _). apply Hs; [|left].
      apply list_elem_of_lookup. exists k. rewrite lookup_take_lt; [done|lia]. }
    apply str_geb_true. apply str_geb_true in Hfk.
    etrans; [done|]. apply str_lt_le_ne in Hlt. tauto. }
  set (r := search_loop (length a) f 0 (length a)) in *.
  split; apply Forall_lookup; intros k y Hy.
  - apply lookup_take_Some in Hy as [Hy Hk].
    apply str_geb_false. specialize (Hlo k Hk). unfold f in Hlo.
    by rewrite Hy in Hlo.
  - rewrite lookup_drop in Hy. apply lookup_lt_Some in Hy as Hlen.
    specialize (Hhi (r + k)). unfold f in Hhi. rewrite Hy in Hhi.
    apply Hhi. lia.
Qed.

(** * Index maintenance *)

Lemma sorted_NoDup (l : list string) : StronglySorted str_lt l → NoDup l.
Proof.
  induction 1 as [|x l _ IH Hx]; constructor; [|done].
  intros Hin. rewrite Forall_forall in Hx.
  by apply (str_lt_irrefl x), Hx.
Qed.

(** Where [Search] lands on an ascending index: every key before the
    position is below [key], and the position either holds [key] itself,
    followed by larger keys, or starts the keys above [key]. *)
Lemma Search_split idx key :
  StronglySorted str_lt idx →
  Forall (λ y, str_lt y key) (take (Search idx key) idx) ∧
  ((idx !! Search idx key = Some key ∧
    Forall (str_lt key) (drop (S (Search idx key)) idx)) ∨
   (idx !! Search idx key ≠ Some key ∧
    Forall (str_lt key) (drop (Search idx key) idx))).
Proof.
  intros Hs. destruct (Search_sorted idx key Hs) as [Hlo Hhi].
  split; [done|]. set (r := Search idx key) in *.
  rewrite <-(take_drop r idx) in Hs.
  apply StronglySorted_app_1_r in Hs.
  destruct (idx !! r) as [x|] eqn:Hx.
  - rewrite (drop_S _ _ _ Hx) in Hs, Hhi.
    apply StronglySorted_cons in Hs as [Hxs _].
    apply Forall_cons in Hhi as [Hxk _].
    destruct (decide (x = key)) as [->|Hne].
    + left. by split.
    + right. split; [congruence|]. rewrite (drop_S _ _ _ Hx).
      apply str_geb_ne_lt in Hxk; [|done]. constructor; [done|].
      eapply Forall_impl; [exact Hxs|]. intros y ?. by etrans.
  - right. split; [done|]. apply lookup_ge_None in Hx.
    by rewrite drop_ge.
Qed.

Lemma Search_found idx key :
  StronglySorted str_lt idx →
  idx !! Search idx key = Some key ↔ key ∈ idx.
Proof.
  intros Hs. split; [apply list_elem_of_lookup_2|].
  intros Hin. destruct (Search_split idx key Hs) as [Hlo [[? _]|[_ Hhi]]]; [done|].
  rewrite <-(take_drop (Search idx key) idx) in Hin.
  rewrite Forall_forall in Hlo, Hhi.
  apply elem_of_app in Hin as [Hin|Hin];
    [apply Hlo in Hin|apply Hhi in Hin]; by apply str_lt_irrefl in Hin.
Qed.

Lemma updateIndex_add idx key :
  StronglySorted str_lt idx →
  StronglySorted str_lt (updateIndex idx key true) ∧
  ∀ k, k ∈ updateIndex idx key true ↔ k = key ∨ k ∈ idx.
Proof.
  intros Hs. pose proof (Search_le idx key) as Hle.
  destruct (Search_split idx key Hs) as [Hlo Hcase].
  unfold updateIndex. set (r := Search idx key) in *.
  rewrite Forall_forall in Hlo.
  destruct (decide (r = length idx)) as [Hr|Hr].
  { rewrite Hr, firstn_all in Hlo. split.
    - apply StronglySorted_app_2; [|done|repeat constructor].
      intros x1 x2 H1 ->%list_elem_of_singleton. by apply Hlo.
    - intros k. rewrite elem_of_app, list_elem_of_singleton. tauto. }
  destruct (lookup_lt_is_Some_2 idx r) as [x Hx]; [lia|]. rewrite Hx.
  destruct (decide (x = key)) as [->|Hne].
  { split; [done|]. intros k. split; [tauto|].
    intros [->|?]; [|done]. by eapply list_elem_of_lookup_2. }
  destruct Hcase as [[? _]|[_ Hhi]]; [congruence|].
  rewrite Forall_forall in Hhi.
  pose proof Hs as Hs'. rewrite <-(take_drop r idx) in Hs'.
  apply StronglySorted_app in Hs' as (Hcross & Hs1 & Hs2). split.
  - apply StronglySorted_app_2; [|done|].
    + intros x1 x2 H1 [->|H2]%elem_of_cons; [by apply Hlo|by apply Hcross].
    + constructor; [done|]. by apply Forall_forall.
  - intros k. rewrite elem_of_app, elem_of_cons.
    rewrite <-(take_drop r idx) at 3. rewrite elem_of_app. tauto.
Qed.

Lemma updateIndex_remove idx key :
  StronglySorted str_lt idx →
  StronglySorted str_lt (updateIndex idx key false) ∧
  ∀ k, k ∈ updateIndex idx key false ↔ k ≠ key ∧ k ∈ idx.
Proof.
  intros Hs. pose proof (Search_le idx key) as Hle.
  pose proof (Search_found idx key Hs) as Hfound.
  destruct (Search_split idx key Hs) as [Hlo Hcase].
  unfold updateIndex. set (r := Search idx key) in *.
  assert (idx !! r ≠ Some key → StronglySorted str_lt idx ∧
    ∀ k, k ∈ idx ↔ k ≠ key ∧ k ∈ idx) as Hkeep.
  { intros Hne. split; [done|]. intros k. split; [|tauto].
    intros Hk. split; [|done]. intros ->. by apply Hne, Hfound. }
  destruct (decide (r = length idx)) as [Hr|Hr].
  { apply Hkeep. rewrite lookup_ge_None_2; [done|lia]. }
  destruct (lookup_lt_is_Some_2 idx r) as [x Hx]; [lia|]. rewrite Hx.
  destruct (decide (x ≠ key)) as [Hne|Heq].
  { apply Hkeep. congruence. }
  assert (x = key) as -> by (by destruct (decide (x = key))).
  destruct Hcase as [[_ Hhi]|[? _]]; [|done].
  rewrite Forall_forall in Hlo, Hhi.
  pose proof Hs as Hs'. rewrite <-(take_drop_middle idx r key Hx) in Hs'.
  apply StronglySorted_app in Hs' as (Hcross & Hs1 & Hs2).
  apply StronglySorted_cons in Hs2 as [_ Hs2]. split.
  - apply StronglySorted_app_2; [|done..].
    intros x1 x2 H1 H2. apply Hcross; [done|by right].
  - intros k. rewrite <-(take_drop_middle idx r key Hx) at 3.
    rewrite !elem_of_app, elem_of_cons. split.
    + intros [Hk|Hk]; (split; [|tauto]); intros ->;
        [apply Hlo in Hk|apply Hhi in Hk]; by apply str_lt_irrefl in Hk.
    + tauto.
Qed.

(** * The index invariant *)

Lemma index_ok_New : index_ok New.
Proof.
  split_and!; [constructor|constructor|].
  intros k. simpl. rewrite lookup_empty, elem_of_nil, is_Some_alt. tauto.
Qed.

Lemma index_ok_insert_new s k i :
  index_ok s →
  index_ok (mkStorage (<[k := i]> (items s)) (updateIndex (index s) k true)).
Proof.
  intros (Hs & _ & Hdom).
  destruct (updateIndex_add (index s) k Hs) as [Hs' Hin].
  split_and!; simpl; [done|by apply sorted_NoDup|].
  intros k'. rewrite Hin, Hdom, lookup_insert_is_Some.
  destruct (decide (k = k')); naive_solver.
Qed.

Lemma index_ok_insert_old s k i :
  index_ok s → is_Some (items s !! k) →
  index_ok (mkStorage (<[k := i]> (items s)) (index s)).
Proof.
  intros (Hs & Hnd & Hdom) Hk. split_and!; simpl; [done..|].
  intros k'. rewrite Hdom, lookup_insert_is_Some.
  destruct (decide (k = k')); naive_solver.
Qed.

Lemma index_ok_delete s k :
  index_ok s →
  index_ok (mkStorage (delete k (items s)) (updateIndex (index s) k false)).
Proof.
  intros (Hs & _ & Hdom).
  destruct (updateIndex_remove (index s) k Hs) as [Hs' Hin].
  split_and!; simpl; [done|by apply sorted_NoDup|].
  intros k'. rewrite Hin, Hdom, lookup_delete_is_Some. naive_solver.
Qed.

Lemma checkkey_ok s key t create s' r :
  checkkey s key t create = (s', r) →
  index_ok s →
  index_ok s' ∧ ∀ i, r = Ok i → items s' !! key = Some i.
Proof.
  unfold checkkey. intros Hck Hok.
  destruct (items s !! key) as [i|] eqn:Hi.
  - destruct (decide _); simplify_eq; split; [done| |done|]; naive_solver.
  - destruct create; simplify_eq.
    + split; [by apply index_ok_insert_new|].
      intros i [= <-]. simpl. by rewrite lookup_insert_eq.
    + split; [done|]. naive_solver.
Qed.

Lemma Set_ok s key value : index_ok s → index_ok (Set_ s key value).1.
Proof.
  intros Hok. unfold Set_. destruct (item_of_value value) as [i|]; [|done].
  simpl. destruct (items s !! key) eqn:Hk.
  - apply index_ok_insert_old; [done|]. by rewrite Hk.
  - by apply index_ok_insert_new.
Qed.

Lemma Delete_ok s key : index_ok s → index_ok (Delete s key).
Proof.
  intros Hok. unfold Delete. destruct (items s !! key) eqn:Hk.
  - by apply index_ok_delete.
  - rewrite delete_id by done. by destruct s.
Qed.

(** Every operation built on [checkkey] either stops on its error or
    writes back the item at the key [checkkey] has just found there. *)
Ltac after_checkkey s key t create :=
  let Hck := fresh "Hck" in
  destruct (checkkey s key t create) as [s' [i|e]] eqn:Hck;
  apply checkkey_ok in Hck as [Hok' Hi]; [|done|idtac|done]; simpl; [|done];
  specialize (Hi i eq_refl).

Lemma Append_ok s key value : index_ok s → index_ok (Append s key value).1.
Proof.
  intros Hok. unfold Append. after_checkkey s key "list" true.
  apply index_ok_insert_old; [done|]. by rewrite Hi.
Qed.

Lemma Pop_ok s key : index_ok s → index_ok (Pop s key).1.
Proof.
  intros Hok. unfold Pop. after_checkkey s key "list" false.
  destruct (default [] (listValue i) !! _); [|done].
  apply index_ok_insert_old; [done|]. by rewrite Hi.
Qed.

Lemma MapGet_ok s key mkey : index_ok s → index_ok (MapGet s key mkey).1.
Proof.
  intros Hok. unfold MapGet. after_checkkey s key "map" false.
  destruct (mapValue i) as [m|]; [|done]. by destruct (m !! mkey).
Qed.

Lemma MapSet_ok s key mkey value :
  index_ok s → index_ok (MapSet s key mkey value).1.
Proof.
  intros Hok. unfold MapSet. after_checkkey s key "map" true.
  apply index_ok_insert_old; [done|]. by rewrite Hi.
Qed.

Lemma MapDelete_ok s key mkey :
  index_ok s → index_ok (MapDelete s key mkey).1.
Proof.
  intros Hok. unfold MapDelete. after_checkkey s key "map" false.
  apply index_ok_insert_old; [done|]. by rewrite Hi.
Qed.

Lemma step_ok s o : index_ok s → index_ok (step s o).
Proof.
  destruct o; simpl;
    auto using Set_ok, Delete_ok, Append_ok, Pop_ok, MapGet_ok, MapSet_ok,
      MapDelete_ok.
Qed.

Lemma run_snoc ops o : run (ops ++ [o]) = step (run ops) o.
Proof. unfold run. by rewrite foldl_app. Qed.


(** * Patterns *)

Lemma Split_nonempty s sep : Split s sep ≠ [].
Proof.
  destruct s as [|c s]; simpl; [done|].
  destruct (Ascii.eqb c sep); [done|]. by destruct (Split s sep).
Qed.

(** The pieces are one more than the separators: a single piece means no
    wildcard. *)
Lemma Split_single s : length (Split s "*") = 1 ↔ ¬ has_star s.
Proof.
  unfold has_star. induction s as [|c s IH]; simpl; [tauto|].
  destruct (Ascii.eqb_spec c "*") as [->|Hne].
  - pose proof (Split_nonempty s "*"). destruct (Split s "*"); [done|].
    simpl. split; [lia|]. intros []. by left.
  - destruct (Split s "*") as [|p ps] eqn:Hsp.
    { by apply Split_nonempty in Hsp. }
    simpl in *. rewrite IH. split; [intros ? [?|?]; [done|tauto]|tauto].
Qed.

Lemma Glob_star p s :
  Glob (String "*" p) s =
    Glob p s || match s with "" => false | String _ s' => Glob (String "*" p) s' end.
Proof. by destruct s. Qed.

Lemma Glob_matches p s : Glob p s = true ↔ matches p s.
Proof.
  split.
  - revert s. induction p as [|c p IH]; intros s.
    { destruct s; [constructor|done]. }
    destruct (Ascii.eqb_spec c "*") as [->|Hne].
    + induction s as [|d s IHs]; rewrite Glob_star.
      * rewrite orb_false_r. intros ?%IH. by apply (matches_star p "" "").
      * intros [?%IH|Hs]%orb_true_iff.
        { by apply (matches_star p "" (String d s)). }
        apply IHs in Hs. inversion Hs as [|??? Hne|? w s' Hm]; subst; [done|].
        by apply (matches_star p (String d w) s').
    + simpl. destruct (Ascii.eqb_spec c "*") as [|_]; [done|].
      destruct s as [|d s]; [done|].
      destruct (Ascii.eqb_spec c d) as [->|]; [|done]. simpl.
      intros ?%IH. by constructor.
  - induction 1 as [|c p s Hne _ IH|p w s _ IH]; [done|..].
    + simpl. destruct (Ascii.eqb_spec c "*") as [|_]; [done|].
      by rewrite Ascii.eqb_refl.
    + induction w as [|d w IHw].
      * change ("" +:+ s) with s. by rewrite Glob_star, IH.
      * change (String d w +:+ s) with (String d (w +:+ s)).
        by rewrite Glob_star, IHw, orb_true_r.
Qed.

(** * Searching the index *)

Lemma sorted_sublist (l k : list string) :
  sublist l k → StronglySorted str_lt k → StronglySorted str_lt l.
Proof.
  induction 1 as [|x l k Hsub IH|x l k Hsub IH];
    rewrite ?StronglySorted_cons; [done|..].
  - intros [Hx ?]. split; [|auto].
    rewrite Forall_forall in Hx. apply Forall_forall. intros y Hy.
    by apply Hx, (sublist_subseteq _ _ Hsub).
  - intros [_ ?]. auto.
Qed.

(** The exact-match branch on an ascending index: it panics exactly when
    every key is below the pattern, and otherwise answers as a lookup. *)
Lemma GetIndex_exact s search :
  StronglySorted str_lt (index s) → ¬ has_star search →
  GetIndex s search =
    if decide (Forall (λ k, str_lt k search) (index s)) then Panic
    else if decide (search ∈ index s) then Ret [search] else Ret [].
Proof.
  intros Hs Hstar. unfold GetIndex.
  destruct (decide (search = "*")) as [->|_].
  { destruct Hstar. by left. }
  rewrite decide_True by by apply Split_single.
  pose proof (Search_le (index s) search) as Hle.
  pose proof (Search_found (index s) search Hs) as Hfound.
  destruct (Search_split (index s) search Hs) as [Hlo Hcase].
  set (r := Search (index s) search) in *.
  destruct (index s !! r) as [x|] eqn:Hx.
  - destruct (decide (Forall _ _)) as [Hall|_].
    { rewrite Forall_forall in Hall.
      apply list_elem_of_lookup_2 in Hx as Hin.
      destruct Hcase as [[[= ->] _]|[_ Hhi]].
      - by apply Hall, str_lt_irrefl in Hin.
      - rewrite (drop_S _ _ _ Hx) in Hhi. apply Forall_cons in Hhi as [Hhi _].
        destruct (str_lt_irrefl x). etrans; [by apply Hall|done]. }
    destruct (decide (x ≠ search)) as [Hne|Heq].
    + rewrite decide_False; [done|]. rewrite <-Hfound. congruence.
    + assert (x = search) as -> by (by destruct (decide (x = search))).
      rewrite decide_True; [done|]. by apply Hfound.
  - apply lookup_ge_None in Hx. rewrite decide_True; [done|].
    by rewrite firstn_all2 in Hlo.
Qed.

(** * Helper facts for the operations *)

Lemma index_ok_dom s :
  index_ok s ↔
    StronglySorted str_lt (index s) ∧ NoDup (index s) ∧
    list_to_set (C := gset string) (index s) = dom (items s).
Proof.
  unfold index_ok. rewrite set_eq.
  setoid_rewrite elem_of_list_to_set. by setoid_rewrite elem_of_dom.
Qed.

#[local] Instance index_ok_dec s : Decision (index_ok s).
Proof.
  refine (cast_if (decide (StronglySorted str_lt (index s) ∧ NoDup (index s) ∧
    list_to_set (C := gset string) (index s) = dom (items s))));
    by rewrite index_ok_dom.
Defined.

Lemma Marshal_strings l :
  Forall (λ e, is_string e = true) l →
  JString <$> (Sprintf_s <$> l) = Marshal <$> l.
Proof.
  induction 1 as [|[] l Hx _ IH]; simplify_eq/=; [done|]. by rewrite IH.
Qed.

Lemma Marshal_string_map (m : gmap string Value) :
  map_Forall (λ _ e, is_string e = true) m →
  JString <$> (Sprintf_s <$> m) = Marshal <$> m.
Proof.
  intros Hm. apply map_eq. intros k. rewrite !lookup_fmap.
  destruct (m !! k) as [e|] eqn:He; [|done]. simpl.
  apply Hm in He. by destruct e.
Qed.

Lemma checkkey_mismatch s k i t create :
  items s !! k = Some i → Type_ i ≠ t →
  checkkey s k t create = (s, Err (TypeMismatch (Type_ i) t)).
Proof. intros Hi Ht. unfold checkkey. by rewrite Hi, decide_True. Qed.

Lemma checkkey_absent s k t :
  items s !! k = None →
  checkkey s k t false = (s, Err (KeyNotFound k)) ∧
  checkkey s k t true =
    (mkStorage (<[k := mkItem "" None None t]> (items s))
       (updateIndex (index s) k true),
     Ok (mkItem "" None None t)).
Proof. intros Hk. unfold checkkey. by rewrite Hk. Qed.

Lemma checkkey_found s k i create :
  items s !! k = Some i → checkkey s k (Type_ i) create = (s, Ok i).
Proof. intros Hi. unfold checkkey. by rewrite Hi, decide_False by auto. Qed.

Lemma accepted_item v :
  accepted_shape v = true ↔ is_Some (item_of_value v).
Proof. destruct v; simpl; rewrite is_Some_alt; split; done. Qed.

(** * The claims *)

(** C1: for a pattern without [*], [GetIndex] reads [s.index[i]] at the
    position [i] answered by [Search] with no test that [i] is in range.  On
    a fresh store, and on a store all of whose keys sort before the pattern,
    the call panics instead of returning the empty sequence; where the
    position is in range it returns the pattern alone if it is indexed and
    the empty sequence otherwise. *)
Theorem GetIndex_unguarded_read :
  GetIndex New "abc" = Panic ∧
  GetIndex (run [OpSet "aaa" (VString "v")]) "abc" = Panic ∧
  GetIndex (run [OpSet "aaa" (VString "v")]) "aaa" = Ret ["aaa"] ∧
  GetIndex (run [OpSet "aaa" (VString "v")]) "a" = Ret [].
Proof. by vm_compute. Qed.

(** C2: after every sequence of public operations applied to a fresh store
    (hence after each operation of it), the index is strictly ascending in
    the ordinary string order, has no duplicates, and holds exactly the keys
    present in the mapping. *)
Theorem index_invariant ops : index_ok (run ops).
Proof.
  induction ops as [|o ops IH] using rev_ind; [apply index_ok_New|].
  rewrite run_snoc. by apply step_ok.
Qed.

(** C3, as amended: for every key [k] and every value [v] that is a
    string, a [[]string], a [map[string]string], or a non-nil
    [[]interface{}] or [map[string]interface{}] whose elements are all
    strings, [Set(k, v)] succeeds and [Get(k)] then returns the
    serialization of [v] itself. *)
Theorem Set_Get_roundtrip s k v :
  holds_strings v →
  (Set_ s k v).2 = Ok () ∧ Get (Set_ s k v).1 k = Ok (Marshal v).
Proof.
  intros Hv. unfold Set_, Get.
  destruct v as [| | | |l|m|[l|]|[m|]]; try done; simpl;
    rewrite lookup_insert_eq; simpl; (split; [done|]).
  - done.
  - done.
  - done.
  - by rewrite Marshal_strings.
  - by rewrite Marshal_string_map.
Qed.

Lemma Set_Get_roundtrip_witness :
  let v := VSlice (Some [VString "string"]) in
  holds_strings v ∧
  (Set_ New "e" v).2 = Ok () ∧
  Get (Set_ New "e" v).1 "e" = Ok (JArray [JString "string"]).
Proof.
  intros v.
  assert (holds_strings v) as Hv by (apply (bool_decide_unpack _); vm_compute; exact I).
  split; [exact Hv|]. exact (Set_Get_roundtrip New "e" v Hv).
Defined.

(** C3, as stated, fails: [Set] accepts the sequence [[]interface{}{7}],
    stores its element as the string [fmt] prints for it under [%s], and
    [Get] serializes that string, not the number. *)
Lemma Set_Get_roundtrip_fails :
  accepted_shape (VSlice (Some [VInt 7])) = true ∧
  (Set_ New "k" (VSlice (Some [VInt 7]))).2 = Ok () ∧
  Get (Set_ New "k" (VSlice (Some [VInt 7]))).1 "k" =
    Ok (JArray [JString "%!s(int=7)"]) ∧
  Marshal (VSlice (Some [VInt 7])) = JArray [JNumber 7] ∧
  Get (Set_ New "k" (VSlice (Some [VInt 7]))).1 "k" ≠
    Ok (Marshal (VSlice (Some [VInt 7]))).
Proof. split_and!; [done|done|by vm_compute|done|by vm_compute]. Qed.

(** C4: when key [k] holds an item whose tag differs from the one an
    operation requires ([list] for [Append] and [Pop], [map] for [MapGet],
    [MapSet] and [MapDelete]), the operation fails with [TypeMismatch],
    whether or not it would create an absent key, and the whole state
    (the item at [k], the rest of the mapping, the index) is unchanged. *)
Theorem type_guard s k i :
  items s !! k = Some i →
  (∀ t create, Type_ i ≠ t →
     checkkey s k t create = (s, Err (TypeMismatch (Type_ i) t))) ∧
  (Type_ i ≠ "list" →
     (∀ v, Append s k v = (s, Err (TypeMismatch (Type_ i) "list"))) ∧
     Pop s k = (s, Err (TypeMismatch (Type_ i) "list"))) ∧
  (Type_ i ≠ "map" →
     (∀ mk, MapGet s k mk = (s, Err (TypeMismatch (Type_ i) "map"))) ∧
     (∀ mk v, MapSet s k mk v = (s, Err (TypeMismatch (Type_ i) "map"))) ∧
     (∀ mk, MapDelete s k mk = (s, Err (TypeMismatch (Type_ i) "map")))).
Proof.
  intros Hi. split_and!.
  - intros t create Ht. by apply checkkey_mismatch.
  - intros Ht. unfold Append, Pop.
    by rewrite !(checkkey_mismatch s k i "list") by done.
  - intros Ht. unfold MapGet, MapSet, MapDelete.
    by rewrite !(checkkey_mismatch s k i "map") by done.
Qed.

Lemma type_guard_witness :
  let s := run [OpSet "c" (VString "string")] in
  let i := mkItem "string" None None "string" in
  items s !! "c" = Some i ∧
  Append s "c" "b" = (s, Err "type string is not list") ∧
  MapSet s "c" "a" "a" = (s, Err "type string is not map").
Proof.
  intros s i.
  assert (items s !! "c" = Some i) as Hi by (vm_compute; reflexivity).
  destruct (type_guard s "c" i Hi) as (_ & Hl & Hm).
  split; [exact Hi|]. split.
  - apply Hl. vm_compute. discriminate.
  - apply Hm. vm_compute. discriminate.
Defined.

(** C5: for an absent key [k], [Append] and [MapSet] succeed: they create
    an empty item of the expected type, register [k] in the index and then
    write into the new item; [Pop], [MapGet] and [MapDelete] fail with
    [KeyNotFound] and leave the state unchanged. *)
Theorem absent_key_asymmetry s k :
  items s !! k = None →
  (∀ v, Append s k v =
     (mkStorage (<[k := mkItem "" (Some [v]) None "list"]> (items s))
        (updateIndex (index s) k true), Ok ())) ∧
  (∀ mk v, MapSet s k mk v =
     (mkStorage (<[k := mkItem "" None (Some {[mk := v]}) "map"]> (items s))
        (updateIndex (index s) k true), Ok ())) ∧
  (StronglySorted str_lt (index s) → k ∈ updateIndex (index s) k true) ∧
  Pop s k = (s, Err (KeyNotFound k)) ∧
  (∀ mk, MapGet s k mk = (s, Err (KeyNotFound k))) ∧
  (∀ mk, MapDelete s k mk = (s, Err (KeyNotFound k))).
Proof.
  intros Hk.
  destruct (checkkey_absent s k "list" Hk) as [Hl0 Hl1].
  destruct (checkkey_absent s k "map" Hk) as [Hm0 Hm1].
  split_and!.
  - intros v. unfold Append. rewrite Hl1. simpl.
    by rewrite insert_insert_eq.
  - intros mk v. unfold MapSet. rewrite Hm1. simpl.
    by rewrite insert_insert_eq, insert_empty.
  - intros Hs. apply updateIndex_add; auto.
  - unfold Pop. by rewrite Hl0.
  - intros mk. unfold MapGet. by rewrite Hm0.
  - intros mk. unfold MapDelete. by rewrite Hm0.
Qed.

Lemma absent_key_asymmetry_witness :
  items New !! "missing" = None ∧
  Append New "missing" "b" =
    (mkStorage {[ "missing" := mkItem "" (Some ["b"]) None "list" ]} ["missing"],
     Ok ()) ∧
  Pop New "missing" = (New, Err "key missing does not exist").
Proof.
  assert (items New !! "missing" = None) as Hk by reflexivity.
  destruct (absent_key_asymmetry New "missing" Hk) as (Ha & _ & _ & Hp & _).
  split; [exact Hk|]. split; [apply Ha|apply Hp].
Defined.

(** C6: on an existing list-typed key, [Pop] of a non-empty list removes
    and returns its last element and keeps the others in order; [Pop] of a
    list with no element fails with [EmptyList] and changes nothing; on an
    absent key [Pop] fails with [KeyNotFound] and creates nothing. *)
Theorem Pop_lifo s k :
  (∀ i, items s !! k = Some i → Type_ i = "list" →
     (∀ l x, listValue i = Some (l ++ [x]) →
        Pop s k =
          (mkStorage (<[k := set_listValue i (Some l)]> (items s)) (index s),
           Ok x)) ∧
     (length (default [] (listValue i)) = 0 → Pop s k = (s, Err EmptyList))) ∧
  (items s !! k = None → Pop s k = (s, Err (KeyNotFound k))).
Proof.
  split.
  - intros i Hi Ht. unfold Pop.
    rewrite <-Ht, (checkkey_found s k i false Hi). split.
    + intros l x ->. simpl.
      rewrite length_app, Nat.add_sub. simpl.
      rewrite lookup_app_r, Nat.sub_diag by done. simpl.
      by rewrite take_app_length.
    + intros Hlen. destruct (default [] (listValue i)); [done|]. done.
  - intros Hk. unfold Pop. by rewrite (proj1 (checkkey_absent s k "list" Hk)).
Qed.

Lemma Pop_lifo_witness :
  let s := run [OpSet "a" (VStrings (Some ["a"; "b"; "c"]));
                OpSet "b" (VStrings (Some []))] in
  (Pop s "a").2 = Ok "c" ∧
  listValue <$> items (Pop s "a").1 !! "a" = Some (Some ["a"; "b"]) ∧
  Pop s "b" = (s, Err "list is empty") ∧
  Pop s "missing" = (s, Err "key missing does not exist").
Proof.
  intros s.
  destruct (Pop_lifo s "a") as [Ha _]. destruct (Pop_lifo s "b") as [Hb _].
  destruct (Pop_lifo s "missing") as [_ Hm].
  destruct (Ha (mkItem "" (Some ["a"; "b"; "c"]) None "list")) as [Hpop _];
    [vm_compute; reflexivity|reflexivity|].
  destruct (Hb (mkItem "" (Some []) None "list")) as [_ Hempty];
    [vm_compute; reflexivity|reflexivity|].
  rewrite (Hpop ["a"; "b"] "c" eq_refl).
  split; [reflexivity|]. split; [vm_compute; reflexivity|]. split.
  - apply Hempty. reflexivity.
  - apply Hm. vm_compute. reflexivity.
Defined.



(** C8: on an ascending index, [GetIndex("*")] returns the whole index;
    for a pattern that holds a [*] and is not ["*"], [GetIndex] returns
    exactly the indexed keys that match the pattern (a [*] standing for any
    run of zero or more bytes, the match being on the whole key, byte for
    byte), in the order of the index, hence ascending. *)
Theorem GetIndex_wildcard s pat :
  StronglySorted str_lt (index s) →
  GetIndex s "*" = Ret (index s) ∧
  (has_star pat → pat ≠ "*" →
     ∃ res, GetIndex s pat = Ret res ∧
       (∀ k, k ∈ res ↔ k ∈ index s ∧ matches pat k) ∧
       sublist res (index s) ∧
       StronglySorted str_lt res).
Proof.
  intros Hs. split; [done|]. intros Hstar Hne.
  exists (filter (λ val, Glob pat val = true) (index s)). split_and!.
  - unfold GetIndex. rewrite decide_False by done.
    rewrite decide_False; [done|]. rewrite Split_single. tauto.
  - intros k. rewrite list_elem_of_filter, Glob_matches. tauto.
  - apply sublist_filter.
  - eapply sorted_sublist; [apply sublist_filter|done].
Qed.

Lemma GetIndex_wildcard_witness :
  let s := mkStorage ∅ ["aaa"; "aaa:bbb:ccc"; "abc"; "ccc:aaa:bbb"] in
  StronglySorted str_lt (index s) ∧ has_star "*ccc*" ∧ "*ccc*" ≠ "*" ∧
  ∃ res, GetIndex s "*ccc*" = Ret res ∧
    (∀ k, k ∈ res ↔ k ∈ index s ∧ matches "*ccc*" k) ∧
    sublist res (index s) ∧ StronglySorted str_lt res.
Proof.
  intros s.
  assert (StronglySorted str_lt (index s)) as Hs
    by (apply (bool_decide_unpack _); vm_compute; exact I).
  assert (has_star "*ccc*") as Hstar by (left; reflexivity).
  assert ("*ccc*" ≠ "*") as Hne by discriminate.
  split; [exact Hs|]. split; [exact Hstar|]. split; [exact Hne|].
  exact (proj2 (GetIndex_wildcard s "*ccc*" Hs) Hstar Hne).
Defined.

(** C9: [Delete] has no failure.  On an absent key it leaves the state as
    it is; on a present key it removes the key from the mapping and from
    the index and leaves every other key where it was. *)
Theorem Delete_idempotent s k :
  (items s !! k = None → Delete s k = s) ∧
  (index_ok s → is_Some (items s !! k) →
     items (Delete s k) = delete k (items s) ∧
     items (Delete s k) !! k = None ∧
     (k ∉ index (Delete s k)) ∧
     (∀ k', k' ≠ k →
        items (Delete s k) !! k' = items s !! k' ∧
        ((k' ∈ index (Delete s k)) ↔ (k' ∈ index s))) ∧
     index_ok (Delete s k)).
Proof.
  split.
  - intros Hk. unfold Delete. rewrite Hk, delete_id by done. by destruct s.
  - intros Hok [i Hi].
    pose proof (Delete_ok s k Hok) as Hok'. revert Hok'.
    destruct Hok as (Hs & _ & _). unfold Delete. rewrite Hi. simpl.
    destruct (updateIndex_remove (index s) k Hs) as [_ Hin]. intros Hok'.
    split_and!; [done|by rewrite lookup_delete_eq| | |done].
    + rewrite Hin. tauto.
    + intros k' ?. rewrite lookup_delete_ne by done. rewrite Hin. tauto.
Qed.

Lemma Delete_idempotent_witness :
  let s := run [OpSet "a" (VString "somevalue"); OpSet "c" (VString "somevalue")] in
  items s !! "z" = None ∧ Delete s "z" = s ∧
  index_ok s ∧ is_Some (items s !! "c") ∧
  items (Delete s "c") !! "c" = None ∧ "c" ∉ index (Delete s "c").
Proof.
  intros s.
  assert (items s !! "z" = None) as Hz by (vm_compute; reflexivity).
  assert (index_ok s) as Hok by (apply (bool_decide_unpack _); vm_compute; exact I).
  assert (is_Some (items s !! "c")) as Hc by (vm_compute; eexists; reflexivity).
  destruct (Delete_idempotent s "z") as [Habs _]. destruct (Delete_idempotent s "c") as [_ Hpres].
  destruct (Hpres Hok Hc) as (_ & Hgone & Hidx & _).
  split; [exact Hz|]. split; [exact (Habs Hz)|]. split; [exact Hok|].
  split; [exact Hc|]. split; [exact Hgone|exact Hidx].
Defined.

(** C10: a successful [Pop(k)] only shortens the list stored at [k]: the
    key stays in the mapping with a list-typed item (also when the list
    becomes empty), the item's other fields, every other key and the index
    are unchanged, and [k] is still in the index. *)
Theorem Pop_keeps_key s k s' v :
  Pop s k = (s', Ok v) →
  ∃ i l,
    items s !! k = Some i ∧ Type_ i = "list" ∧ listValue i = Some (l ++ [v]) ∧
    items s' = <[k := mkItem (stringValue i) (Some l) (mapValue i) "list"]> (items s) ∧
    (∀ k', k' ≠ k → items s' !! k' = items s !! k') ∧
    index s' = index s ∧
    (index_ok s → k ∈ index s' ∧ index_ok s').
Proof.
  intros Hpop. revert Hpop. unfold Pop, checkkey.
  destruct (items s !! k) as [i|] eqn:Hi; [|done].
  destruct (decide (Type_ i ≠ "list")) as [|Ht]; [done|].
  assert (Type_ i = "list") as Ht' by (by destruct (decide (Type_ i = "list"))).
  destruct (listValue i) as [l|] eqn:Hl; simpl; [|done].
  destruct (l !! (length l - 1)) as [x|] eqn:Hx; [|done].
  intros [= <- <-]. simpl.
  assert (l = take (length l - 1) l ++ [x]) as Hsplit.
  { rewrite <-(take_drop (length l - 1) l) at 1. f_equal.
    apply lookup_lt_Some in Hx as Hlen.
    rewrite (drop_S _ _ _ Hx), drop_ge by lia. done. }
  exists i, (take (length l - 1) l). unfold set_listValue. rewrite Ht', Hl.
  split_and!; [done|done|by f_equal|done| |done|].
  - intros k' ?. by rewrite lookup_insert_ne.
  - intros Hok. split.
    + destruct Hok as (_ & _ & Hdom). apply Hdom. by rewrite Hi.
    + apply index_ok_insert_old; [done|]. by rewrite Hi.
Qed.

Lemma Pop_keeps_key_witness :
  let s := run [OpSet "l" (VStrings (Some ["x"]))] in
  let s' := mkStorage {[ "l" := mkItem "" (Some []) None "list" ]} ["l"] in
  Pop s "l" = (s', Ok "x") ∧
  ∃ i l,
    items s !! "l" = Some i ∧ Type_ i = "list" ∧ listValue i = Some (l ++ ["x"]) ∧
    items s' = <["l" := mkItem (stringValue i) (Some l) (mapValue i) "list"]> (items s) ∧
    (∀ k', k' ≠ "l" → items s' !! k' = items s !! k') ∧
    index s' = index s ∧
    (index_ok s → "l" ∈ index s' ∧ index_ok s').
Proof.
  intros s s'.
  assert (Pop s "l" = (s', Ok "x")) as Hpop by (vm_compute; reflexivity).
  split; [exact Hpop|]. exact (Pop_keeps_key s "l" s' "x" Hpop).
Defined.

(** * Further properties of the index *)

(** Two ascending slices with the same keys are the same slice. *)
Lemma sorted_ext (l1 l2 : list string) :
  StronglySorted str_lt l1 → StronglySorted str_lt l2 →
  (∀ k, k ∈ l1 ↔ k ∈ l2) → l1 = l2.
Proof.
  intros H1 H2 Hin.
  apply (StronglySorted_unique_strong str_lt); [|done..|].
  - intros x1 x2 _ _ H12 H21. destruct (str_lt_irrefl x1). by etrans.
  - apply NoDup_Permutation; auto using sorted_NoDup.
Qed.

Lemma sorted_filter (P : string → Prop) `{!∀ x, Decision (P x)} l :
  StronglySorted str_lt l → StronglySorted str_lt (filter P l).
Proof. apply sorted_sublist, sublist_filter. Qed.

Lemma storage_eq s1 s2 :
  items s1 = items s2 → index s1 = index s2 → s1 = s2.
Proof. destruct s1, s2. simpl. by intros -> ->. Qed.

Lemma index_ok_ext s1 s2 :
  index_ok s1 → index_ok s2 → items s1 = items s2 → s1 = s2.
Proof.
  intros (Hs1 & _ & Hd1) (Hs2 & _ & Hd2) Heq.
  apply storage_eq; [done|]. apply sorted_ext; [done..|].
  intros k. by rewrite Hd1, Hd2, Heq.
Qed.

(** X1: on any index, ascending or not, adding a key keeps every entry and
    makes the key present, and the index grows by at most one entry; the
    read [index[i]] after the test [i == len(index)] is always in range. *)
Theorem updateIndex_add_any idx key :
  (∀ k, k ∈ updateIndex idx key true ↔ k = key ∨ k ∈ idx) ∧
  length idx ≤ length (updateIndex idx key true) ≤ S (length idx) ∧
  (Search idx key = length idx ∨ is_Some (idx !! Search idx key)).
Proof.
  pose proof (Search_le idx key) as Hle. unfold updateIndex.
  set (r := Search idx key) in *.
  destruct (decide (r = length idx)) as [Hr|Hr].
  { split; [|split]; [|rewrite length_app; simpl; lia|by left].
    intros k. rewrite elem_of_app, list_elem_of_singleton. tauto. }
  destruct (lookup_lt_is_Some_2 idx r) as [x Hx]; [lia|]. rewrite Hx.
  destruct (decide (x = key)) as [->|Hne].
  { split; [|split]; [|lia|by right]. intros k. split; [tauto|].
    intros [->|?]; [|done]. by eapply list_elem_of_lookup_2. }
  split; [|split]; [| |by right].
  - intros k. rewrite elem_of_app, elem_of_cons.
    rewrite <-(take_drop r idx) at 3. rewrite elem_of_app. tauto.
  - rewrite length_app. simpl. rewrite length_take, length_drop. lia.
Qed.

(** X2: on any index, removing a key never adds an entry and drops at most
    one: the result is the index itself or the index without the entry at
    the position the search answered, which then held the key. *)
Theorem updateIndex_remove_any idx key :
  updateIndex idx key false = idx ∨
  (idx !! Search idx key = Some key ∧
   updateIndex idx key false = delete (Search idx key) idx).
Proof.
  unfold updateIndex. set (r := Search idx key).
  destruct (decide (r = length idx)); [by left|].
  destruct (idx !! r) as [x|] eqn:Hx; [|by left].
  destruct (decide (x ≠ key)) as [|Heq]; [by left|right].
  assert (x = key) as -> by (by destruct (decide (x = key))).
  split; [done|]. by rewrite delete_take_drop.
Qed.

(** X3: on an ascending index, adding a key gives the keys below it, the
    key, and the keys above it, so the result is ascending, holds the old
    keys and the new one, and is one longer exactly when the key is new. *)
Theorem updateIndex_add_sorted idx key :
  StronglySorted str_lt idx →
  updateIndex idx key true =
    filter (λ y, str_lt y key) idx ++ key :: filter (str_lt key) idx ∧
  StronglySorted str_lt (updateIndex idx key true) ∧
  length (updateIndex idx key true) =
    if decide (key ∈ idx) then length idx else S (length idx).
Proof.
  intros Hs. destruct (updateIndex_add idx key Hs) as [Hs' Hin].
  assert (updateIndex idx key true =
    filter (λ y, str_lt y key) idx ++ key :: filter (str_lt key) idx) as Heq.
  { apply sorted_ext; [done| |].
    - apply StronglySorted_app_2.
      + intros x1 x2 [H1 _]%list_elem_of_filter
          [->|[H2 _]%list_elem_of_filter]%elem_of_cons; [done|by etrans].
      + by apply sorted_filter.
      + constructor; [by apply sorted_filter|].
        apply Forall_forall. by intros y [? _]%list_elem_of_filter.
    - intros k. rewrite Hin, elem_of_app, elem_of_cons, !list_elem_of_filter.
      split; [|tauto]. intros [->|Hk]; [tauto|].
      destruct (decide (k = key)) as [|Hne]; [tauto|].
      destruct (decide (str_lt k key)) as [|Hnlt]; [tauto|].
      right. right. split; [|done]. apply str_geb_ne_lt; [|done].
      unfold str_geb. unfold str_lt in Hnlt. by destruct (String.ltb k key). }
  split_and!; [done|done|].
  destruct (decide (key ∈ idx)) as [Hk|Hk].
  - f_equal. apply sorted_ext; [done..|]. intros k. rewrite Hin.
    split; [intros [->|?]; done|tauto].
  - pose proof (Search_le idx key) as Hle.
    pose proof (Search_found idx key Hs) as Hfound.
    unfold updateIndex. set (r := Search idx key) in *.
    destruct (decide (r = length idx)); [rewrite length_app; simpl; lia|].
    destruct (lookup_lt_is_Some_2 idx r) as [x Hx]; [lia|]. rewrite Hx.
    destruct (decide (x = key)) as [->|Hne]; [by apply Hfound in Hx|].
    rewrite length_app. simpl. rewrite length_take, length_drop. lia.
Qed.

Lemma updateIndex_add_sorted_witness :
  StronglySorted str_lt ["aaa"; "zzz"] ∧
  updateIndex ["aaa"; "zzz"] "bbb" true = ["aaa"; "bbb"; "zzz"] ∧
  length (updateIndex ["aaa"; "zzz"] "bbb" true) = 3.
Proof.
  assert (StronglySorted str_lt ["aaa"; "zzz"]) as Hs
    by (apply (bool_decide_unpack _); vm_compute; exact I).
  destruct (updateIndex_add_sorted ["aaa"; "zzz"] "bbb" Hs) as (Heq & _ & Hlen).
  split; [exact Hs|]. split; [rewrite Heq; reflexivity|exact Hlen].
Defined.

(** X4: on an ascending index, removing a key gives the index without
    that key, still ascending; removing a key that is not indexed changes
    nothing. *)
Theorem updateIndex_remove_sorted idx key :
  StronglySorted str_lt idx →
  updateIndex idx key false = filter (λ y, y ≠ key) idx ∧
  StronglySorted str_lt (updateIndex idx key false) ∧
  (key ∉ idx → updateIndex idx key false = idx).
Proof.
  intros Hs. destruct (updateIndex_remove idx key Hs) as [Hs' Hin].
  split_and!; [|done|].
  - apply sorted_ext; [done|by apply sorted_filter|].
    intros k. by rewrite Hin, list_elem_of_filter.
  - intros Hk. apply sorted_ext; [done..|]. intros k. rewrite Hin.
    split; [tauto|]. intros ?. split; [|done]. by intros ->.
Qed.

Lemma updateIndex_remove_sorted_witness :
  StronglySorted str_lt ["aaa"; "bbb"; "zzz"] ∧
  updateIndex ["aaa"; "bbb"; "zzz"] "bbb" false = ["aaa"; "zzz"] ∧
  updateIndex ["aaa"; "bbb"; "zzz"] "ccc" false = ["aaa"; "bbb"; "zzz"].
Proof.
  assert (StronglySorted str_lt ["aaa"; "bbb"; "zzz"]) as Hs
    by (apply (bool_decide_unpack _); vm_compute; exact I).
  destruct (updateIndex_remove_sorted ["aaa"; "bbb"; "zzz"] "bbb" Hs)
    as (Heq & _ & _).
  destruct (updateIndex_remove_sorted ["aaa"; "bbb"; "zzz"] "ccc" Hs)
    as (_ & _ & Hno).
  split; [exact Hs|]. split; [rewrite Heq; reflexivity|].
  apply Hno. vm_compute. intros Hin.
  repeat (apply elem_of_cons in Hin as [Hin|Hin]; [discriminate|]).
  by apply elem_of_nil in Hin.
Defined.

(** X5: on an ascending index, adding a key twice is adding it once, and
    adding a key and then removing it gives back an index that did not hold
    it; removing and then adding gives back an index that did. *)
Theorem updateIndex_round_trips idx key :
  StronglySorted str_lt idx →
  updateIndex (updateIndex idx key true) key true = updateIndex idx key true ∧
  (key ∉ idx → updateIndex (updateIndex idx key true) key false = idx) ∧
  (key ∈ idx → updateIndex (updateIndex idx key false) key true = idx).
Proof.
  intros Hs.
  destruct (updateIndex_add idx key Hs) as [Hsa Hina].
  destruct (updateIndex_remove idx key Hs) as [Hsr Hinr].
  destruct (updateIndex_add _ key Hsa) as [Hsaa Hinaa].
  destruct (updateIndex_remove _ key Hsa) as [Hsar Hinar].
  destruct (updateIndex_add _ key Hsr) as [Hsra Hinra].
  split_and!.
  - apply sorted_ext; [done..|]. intros k. rewrite Hinaa, Hina. tauto.
  - intros Hk. apply sorted_ext; [done..|]. intros k. rewrite Hinar, Hina.
    split; [tauto|]. intros ?. split; [by intros ->|tauto].
  - intros Hk. apply sorted_ext; [done..|]. intros k. rewrite Hinra, Hinr.
    split; [intros [->|?]; tauto|].
    intros ?. destruct (decide (k = key)); tauto.
Qed.

Lemma updateIndex_round_trips_witness :
  StronglySorted str_lt ["aaa"; "zzz"] ∧
  updateIndex (updateIndex ["aaa"; "zzz"] "bbb" true) "bbb" true =
    updateIndex ["aaa"; "zzz"] "bbb" true ∧
  updateIndex (updateIndex ["aaa"; "zzz"] "bbb" true) "bbb" false = ["aaa"; "zzz"].
Proof.
  assert (StronglySorted str_lt ["aaa"; "zzz"]) as Hs
    by (apply (bool_decide_unpack _); vm_compute; exact I).
  destruct (updateIndex_round_trips ["aaa"; "zzz"] "bbb" Hs) as (Hi & Har & _).
  split; [exact Hs|]. split; [exact Hi|]. apply Har.
  intros Hin. repeat (apply elem_of_cons in Hin as [Hin|Hin]; [discriminate|]).
  by apply elem_of_nil in Hin.
Defined.

(** * Further properties of the store *)

(** X6: the index is determined by the keys of the mapping: two stores that
    keep the index invariant and hold the same keys have the same index,
    whatever operations built them, and the index has one entry per key. *)
Theorem index_canonical s1 s2 :
  index_ok s1 → index_ok s2 → dom (items s1) = dom (items s2) →
  index s1 = index s2 ∧ length (index s1) = size (items s1).
Proof.
  intros Hok1 (Hs2 & _ & Hd2) Hdom.
  pose proof Hok1 as (Hs1 & Hnd1 & Hd1). split.
  - apply sorted_ext; [done..|]. intros k.
    by rewrite Hd1, Hd2, <-!elem_of_dom, Hdom.
  - apply index_ok_dom in Hok1 as (_ & _ & Hset).
    by rewrite <-size_dom, <-Hset, size_list_to_set.
Qed.

Lemma index_canonical_witness :
  let s1 := run [OpSet "zzz" (VString "1"); OpAppend "aaa" "2"] in
  let s2 := run [OpMapSet "aaa" "k" "v"; OpSet "zzz" (VInt 7);
                 OpSet "zzz" (VStrings None)] in
  index_ok s1 ∧ index_ok s2 ∧ dom (items s1) = dom (items s2) ∧
  index s1 = index s2 ∧ length (index s1) = size (items s1).
Proof.
  intros s1 s2.
  assert (index_ok s1) as H1 by (apply (bool_decide_unpack _); vm_compute; exact I).
  assert (index_ok s2) as H2 by (apply (bool_decide_unpack _); vm_compute; exact I).
  assert (dom (items s1) = dom (items s2)) as Hd
    by (apply (bool_decide_unpack _); vm_compute; exact I).
  split; [exact H1|]. split; [exact H2|]. split; [exact Hd|].
  exact (index_canonical s1 s2 H1 H2 Hd).
Defined.

Lemma item_of_value_ok v i : item_of_value v = Some i → item_ok i.
Proof.
  unfold item_ok. destruct v; intros [= <-]; simpl; tauto.
Qed.

Lemma set_listValue_ok i l :
  item_ok i → Type_ i = "list" → item_ok (set_listValue i l).
Proof.
  unfold item_ok. simpl. intros [(?&?&?)|[(?&?&?)|(?&?&?)]] Ht;
    [congruence|tauto|congruence].
Qed.

Lemma set_mapValue_ok i m :
  item_ok i → Type_ i = "map" → item_ok (set_mapValue i m).
Proof.
  unfold item_ok. simpl. intros [(?&?&?)|[(?&?&?)|(?&?&?)]] Ht;
    [congruence|congruence|tauto].
Qed.

(** What [checkkey] hands back once the tags of the store are in order. *)
Lemma checkkey_items_ok s key t create s' r :
  t = "list" ∨ t = "map" →
  checkkey s key t create = (s', r) → items_ok s →
  items_ok s' ∧
  ∀ i, r = Ok i → items s' !! key = Some i ∧ Type_ i = t ∧ item_ok i.
Proof.
  intros Ht. unfold checkkey. intros Hck Hok.
  destruct (items s !! key) as [i|] eqn:Hi.
  - destruct (decide (Type_ i ≠ t)) as [|Heq]; simplify_eq.
    { split; [done|]. by intros. }
    split; [done|]. intros ? [= <-]. split_and!; [done| |by eapply Hok].
    by destruct (decide (Type_ i = t)).
  - destruct create; simplify_eq; [|by split].
    assert (item_ok (mkItem "" None None t)) as Hnew.
    { unfold item_ok. simpl. destruct Ht; tauto. }
    split; [by apply map_Forall_insert_2|].
    intros ? [= <-]. simpl. by rewrite lookup_insert_eq.
Qed.

Lemma step_items_ok s o : items_ok s → items_ok (step s o).
Proof.
  intros Hok. destruct o; simpl; [..|done|done].
  - unfold Set_. destruct (item_of_value value) as [i|] eqn:Hv; [|done].
    apply map_Forall_insert_2; [by eapply item_of_value_ok|done].
  - unfold Delete. simpl. by apply map_Forall_delete.
  - unfold Append.
    destruct (checkkey s key "list" true) as [s' [i|e]] eqn:Hck;
      apply checkkey_items_ok in Hck as [Hok' Hi];
      [simpl|tauto|done|done|tauto|done].
    destruct (Hi i eq_refl) as (_ & ? & ?).
    apply map_Forall_insert_2; [by apply set_listValue_ok|done].
  - unfold Pop.
    destruct (checkkey s key "list" false) as [s' [i|e]] eqn:Hck;
      apply checkkey_items_ok in Hck as [Hok' Hi];
      [simpl|tauto|done|done|tauto|done].
    destruct (Hi i eq_refl) as (_ & ? & ?).
    destruct (default [] (listValue i) !! _); [|done].
    apply map_Forall_insert_2; [by apply set_listValue_ok|done].
  - unfold MapGet.
    destruct (checkkey s key "map" false) as [s' [i|e]] eqn:Hck;
      apply checkkey_items_ok in Hck as [Hok' Hi];
      [simpl|tauto|done|done|tauto|done].
    destruct (mapValue i) as [m|]; [|done]. by destruct (m !! mkey).
  - unfold MapSet.
    destruct (checkkey s key "map" true) as [s' [i|e]] eqn:Hck;
      apply checkkey_items_ok in Hck as [Hok' Hi];
      [simpl|tauto|done|done|tauto|done].
    destruct (Hi i eq_refl) as (_ & ? & ?).
    apply map_Forall_insert_2; [by apply set_mapValue_ok|done].
  - unfold MapDelete.
    destruct (checkkey s key "map" false) as [s' [i|e]] eqn:Hck;
      apply checkkey_items_ok in Hck as [Hok' Hi];
      [simpl|tauto|done|done|tauto|done].
    destruct (Hi i eq_refl) as (_ & ? & ?).
    apply map_Forall_insert_2; [by apply set_mapValue_ok|done].
Qed.

Lemma run_items_ok ops : items_ok (run ops).
Proof.
  induction ops as [|o ops IH] using rev_ind; [apply map_Forall_empty|].
  rewrite run_snoc. by apply step_items_ok.
Qed.

(** X7: in every store built by public operations from a fresh one, each
    item carries one of the three tags and only the payload of its tag is
    in use: the two other payloads are still empty. *)
Theorem items_tagged ops k i :
  items (run ops) !! k = Some i → item_ok i.
Proof.
  revert k i. change (items_ok (run ops)).
  induction ops as [|o ops IH] using rev_ind; [apply map_Forall_empty|].
  rewrite run_snoc. by apply step_items_ok.
Qed.

Lemma items_tagged_witness :
  let ops := [OpSet "l" (VStrings (Some ["x"])); OpSet "l" (VString "s")] in
  items (run ops) !! "l" = Some (mkItem "s" None None "string") ∧
  item_ok (mkItem "s" None None "string").
Proof.
  intros ops.
  assert (items (run ops) !! "l" = Some (mkItem "s" None None "string")) as Hi
    by (vm_compute; reflexivity).
  split; [exact Hi|]. exact (items_tagged ops "l" _ Hi).
Defined.

(** X8: on a store built by public operations, [Get] fails only for an
    absent key: it never reports an unknown type, and for a present key it
    returns the serialization of the payload named by the tag. *)
Theorem Get_reachable ops k :
  Get (run ops) k ≠ Err UnknownType ∧
  (Get (run ops) k = Err ItemNotFound ↔ items (run ops) !! k = None) ∧
  (∀ i, items (run ops) !! k = Some i →
     Get (run ops) k = Ok (Marshal (VString (stringValue i))) ∧ Type_ i = "string" ∨
     Get (run ops) k = Ok (Marshal (VStrings (listValue i))) ∧ Type_ i = "list" ∨
     Get (run ops) k = Ok (Marshal (VStringMap (mapValue i))) ∧ Type_ i = "map").
Proof.
  pose proof (run_items_ok ops k) as Hok. unfold Get.
  destruct (items (run ops) !! k) as [i|] eqn:Hi.
  - destruct (Hok i eq_refl) as [(Ht&_)|[(Ht&_)|(Ht&_)]]; rewrite Ht; simpl;
      (split_and!; [done|by split|]); intros ? [= <-]; rewrite Ht; tauto.
  - split_and!; [done|by split|done].
Qed.

Lemma Get_reachable_witness :
  let ops := [OpSet "a" (VString "hello"); OpDelete "b"] in
  items (run ops) !! "a" = Some (mkItem "hello" None None "string") ∧
  Get (run ops) "a" = Ok (JString "hello") ∧
  Get (run ops) "b" = Err "item does not exist".
Proof.
  intros ops.
  destruct (Get_reachable ops "a") as (_ & _ & Ha).
  destruct (Get_reachable ops "b") as (_ & Hb & _).
  assert (items (run ops) !! "a" = Some (mkItem "hello" None None "string"))
    as Hi by (vm_compute; reflexivity).
  split; [exact Hi|]. split.
  - destruct (Ha _ Hi) as [[Hg _]|[[_ Ht]|[_ Ht]]];
      [exact Hg|discriminate Ht|discriminate Ht].
  - apply Hb. vm_compute. reflexivity.
Defined.

(** * How the operations compose *)

Lemma Delete_absent s k : items s !! k = None → Delete s k = s.
Proof.
  intros Hk. unfold Delete. rewrite Hk, delete_id by done. by destruct s.
Qed.

Lemma set_listValue_id i l : listValue i = l → set_listValue i l = i.
Proof. intros <-. by destruct i. Qed.

(** X9: after [Delete(k)] the key is gone for every reader: [Get] reports
    that the item does not exist, [Pop], [MapGet] and [MapDelete] report
    that the key does not exist and change nothing, and a second [Delete]
    changes nothing. *)
Theorem Delete_then_access s k :
  let s' := Delete s k in
  Get s' k = Err ItemNotFound ∧
  Pop s' k = (s', Err (KeyNotFound k)) ∧
  (∀ mk, MapGet s' k mk = (s', Err (KeyNotFound k))) ∧
  (∀ mk, MapDelete s' k mk = (s', Err (KeyNotFound k))) ∧
  Delete s' k = s'.
Proof.
  intros s'.
  assert (items s' !! k = None) as Hk by apply lookup_delete_eq.
  unfold Get, Pop, MapGet, MapDelete, checkkey. rewrite Hk.
  split_and!; [done..|]. by apply Delete_absent.
Qed.

(** X10: the last [Set] wins: storing an accepted value at a key gives the
    same store whether or not another [Set] on that key came just before. *)
Theorem Set_Set s k v1 v2 :
  accepted_shape v2 = true →
  (Set_ (Set_ s k v1).1 k v2).1 = (Set_ s k v2).1.
Proof.
  intros [i2 Hi2]%accepted_item. unfold Set_. rewrite Hi2.
  destruct (item_of_value v1) as [i1|]; simpl; [|done].
  rewrite lookup_insert_eq, insert_insert_eq.
  by destruct (items s !! k).
Qed.

Lemma Set_Set_witness :
  accepted_shape (VString "new string") = true ∧
  (Set_ (Set_ New "b" (VStrings (Some ["string"]))).1 "b" (VString "new string")).1
    = (Set_ New "b" (VString "new string")).1.
Proof.
  split; [reflexivity|]. apply Set_Set. reflexivity.
Defined.

(** X11: on a store that keeps the index invariant, [Set] on a key that was
    absent followed by [Delete] of that key gives back the store as it was,
    mapping and index, whatever the value. *)
Theorem Set_Delete s k v :
  index_ok s → items s !! k = None →
  Delete (Set_ s k v).1 k = s.
Proof.
  intros Hok Hk. apply index_ok_ext; [by apply Delete_ok, Set_ok|done|].
  unfold Set_, Delete. destruct (item_of_value v); simpl.
  - by rewrite delete_insert_id.
  - by apply delete_id.
Qed.

Lemma Set_Delete_witness :
  let s := run [OpSet "a" (VString "x"); OpSet "c" (VString "y")] in
  index_ok s ∧ items s !! "b" = None ∧
  Delete (Set_ s "b" (VStrings (Some ["z"]))).1 "b" = s.
Proof.
  intros s.
  assert (index_ok s) as Hok by (apply (bool_decide_unpack _); vm_compute; exact I).
  assert (items s !! "b" = None) as Hk by (vm_compute; reflexivity).
  split; [exact Hok|]. split; [exact Hk|].
  exact (Set_Delete s "b" _ Hok Hk).
Defined.

(** X12: on a store that keeps the index invariant, writes to two
    different keys commute: the two orders of [Set] give the same mapping
    and the same index. *)
Theorem Set_commute s k1 v1 k2 v2 :
  index_ok s → k1 ≠ k2 →
  (Set_ (Set_ s k1 v1).1 k2 v2).1 = (Set_ (Set_ s k2 v2).1 k1 v1).1.
Proof.
  intros Hok Hne. apply index_ok_ext; [by do 2 apply Set_ok..|].
  unfold Set_.
  destruct (item_of_value v1) as [i1|], (item_of_value v2) as [i2|]; simpl;
    [|done..].
  by apply insert_insert_ne.
Qed.

Lemma Set_commute_witness :
  index_ok New ∧ "zzz" ≠ "aaa" ∧
  (Set_ (Set_ New "zzz" (VString "1")).1 "aaa" (VString "2")).1 =
  (Set_ (Set_ New "aaa" (VString "2")).1 "zzz" (VString "1")).1.
Proof.
  assert ("zzz" ≠ "aaa") as Hne by discriminate.
  split; [exact index_ok_New|]. split; [exact Hne|].
  exact (Set_commute New "zzz" _ "aaa" _ index_ok_New Hne).
Defined.

Lemma Sprintf_strings (l : list string) : Sprintf_s <$> (VString <$> l) = l.
Proof. induction l as [|x l IH]; [done|]. by rewrite !fmap_cons, IH. Qed.

(** X13: the loosely typed shapes are stored as the native ones: a
    sequence or a mapping of [interface{}] values that are all strings
    gives the same store as the [[]string] or [map[string]string] with the
    same strings. *)
Theorem Set_interface_strings s k :
  (∀ l, Set_ s k (VSlice (Some (VString <$> l)))
        = Set_ s k (VStrings (Some l))) ∧
  (∀ m, Set_ s k (VMap (Some (VString <$> m)))
        = Set_ s k (VStringMap (Some m))).
Proof.
  split; intros x; unfold Set_, item_of_value, from_option, id.
  - by rewrite Sprintf_strings.
  - rewrite <-map_fmap_compose.
    by rewrite (map_fmap_ext _ id) by done; rewrite map_fmap_id.
Qed.

(** * Lists *)

Lemma Pop_snoc s k i l x :
  items s !! k = Some i → Type_ i = "list" → listValue i = Some (l ++ [x]) →
  Pop s k =
    (mkStorage (<[k := set_listValue i (Some l)]> (items s)) (index s), Ok x).
Proof.
  intros Hi Ht Hl. unfold Pop. rewrite <-Ht, (checkkey_found s k i false Hi).
  rewrite Hl. simpl. rewrite length_app, Nat.add_sub. simpl.
  rewrite lookup_app_r, Nat.sub_diag by done. simpl.
  by rewrite take_app_length.
Qed.

Lemma Append_found s k i v :
  items s !! k = Some i → Type_ i = "list" →
  Append s k v =
    (mkStorage
       (<[k := set_listValue i (Some (default [] (listValue i) ++ [v]))]>
          (items s))
       (index s), Ok ()).
Proof.
  intros Hi Ht. unfold Append.
  by rewrite <-Ht, (checkkey_found s k i true Hi).
Qed.



(** X15: the list at a key is a stack: as many calls of [Pop] as the list
    has elements return them last to first and leave the key with an empty
    list, and the next [Pop] fails with [EmptyList]. *)
Theorem pops_drain s k i l :
  items s !! k = Some i → Type_ i = "list" → listValue i = Some l →
  let s' := mkStorage (<[k := set_listValue i (Some [])]> (items s)) (index s) in
  pops (length l) s k = (s', Ok <$> reverse l) ∧
  Pop s' k = (s', Err EmptyList).
Proof.
  intros Hi Ht Hl s'. split.
  - subst s'. revert s i Hi Ht Hl.
    induction l as [|x l IH] using rev_ind; intros s i Hi Ht Hl.
    { simpl. rewrite <-Hl, (set_listValue_id i) by done.
      rewrite insert_id by done. by destruct s. }
    rewrite length_app, Nat.add_comm. simpl.
    rewrite (Pop_snoc s k i l x Hi Ht Hl).
    rewrite (IH _ (set_listValue i (Some l))); simpl;
      [|apply lookup_insert_eq|done|done].
    by rewrite insert_insert_eq, reverse_app.
  - unfold Pop, checkkey. subst s'. simpl. rewrite lookup_insert_eq. simpl.
    by rewrite decide_False by (by rewrite Ht; intros []).
Qed.

Lemma pops_drain_witness :
  let s := run [OpSet "a" (VStrings (Some ["a"; "b"; "c"]))] in
  let i := mkItem "" (Some ["a"; "b"; "c"]) None "list" in
  items s !! "a" = Some i ∧
  (pops 3 s "a").2 = [Ok "c"; Ok "b"; Ok "a"] ∧
  (Pop (pops 3 s "a").1 "a").2 = Err "list is empty".
Proof.
  intros s i.
  assert (items s !! "a" = Some i) as Hi by (vm_compute; reflexivity).
  destruct (pops_drain s "a" i ["a"; "b"; "c"] Hi eq_refl eq_refl) as [Hp He].
  split; [exact Hi|]. change 3 with (length ["a"; "b"; "c"]).
  rewrite Hp. cbn [fst snd]. split; [reflexivity|]. rewrite He. reflexivity.
Defined.

(** * Maps *)

(** X16: the read that follows a successful [MapSet(k, mk, v)] returns
    [v] and changes nothing; when the key held a map before, a read of any
    other map key answers as it did before. *)
Theorem MapSet_MapGet s k mk v s1 :
  MapSet s k mk v = (s1, Ok ()) →
  MapGet s1 k mk = (s1, Ok v) ∧
  (∀ mk', mk' ≠ mk → is_Some (items s !! k) →
     (MapGet s1 k mk').2 = (MapGet s k mk').2).
Proof.
  unfold MapSet, MapGet, checkkey.
  destruct (items s !! k) as [i|] eqn:Hi.
  - destruct (decide (Type_ i ≠ "map")) as [|Ht]; [done|].
    intros [= <-]. simpl. rewrite lookup_insert_eq. simpl.
    destruct (decide (Type_ i ≠ "map")); [done|]. simpl.
    rewrite lookup_insert_eq.
    split; [done|]. intros mk' ? _. rewrite lookup_insert_ne by done.
    destruct (mapValue i) as [m|]; simpl; [by destruct (m !! mk')|].
    by rewrite lookup_empty.
  - intros [= <-]. simpl. rewrite insert_insert_eq, lookup_insert_eq. simpl.
    rewrite lookup_insert_eq. split; [done|]. by intros ?? [].
Qed.

Lemma MapSet_MapGet_witness :
  let s := run [OpSet "m" (VStringMap (Some {[ "k" := "v" ]}))] in
  let s1 := (MapSet s "m" "k2" "v2").1 in
  MapSet s "m" "k2" "v2" = (s1, Ok ()) ∧
  MapGet s1 "m" "k2" = (s1, Ok "v2") ∧
  (MapGet s1 "m" "k").2 = Ok "v".
Proof.
  intros s s1.
  assert (MapSet s "m" "k2" "v2" = (s1, Ok ())) as Hm by (vm_compute; reflexivity).
  destruct (MapSet_MapGet s "m" "k2" "v2" s1 Hm) as [Hget Hother].
  split; [exact Hm|]. split; [exact Hget|].
  rewrite Hother; [vm_compute; reflexivity|discriminate|].
  vm_compute. eexists. reflexivity.
Defined.

(** X17: after a successful [MapDelete(k, mk)] a read of [mk] fails with
    [MapKeyNotFound], and a read of any other map key answers as it did
    before. *)
Theorem MapDelete_MapGet s k mk s1 :
  MapDelete s k mk = (s1, Ok ()) →
  MapGet s1 k mk = (s1, Err (MapKeyNotFound mk)) ∧
  (∀ mk', mk' ≠ mk → (MapGet s1 k mk').2 = (MapGet s k mk').2).
Proof.
  unfold MapDelete, MapGet, checkkey.
  destruct (items s !! k) as [i|] eqn:Hi; [|done].
  destruct (decide (Type_ i ≠ "map")) as [|Ht]; [done|].
  intros [= <-]. simpl. rewrite lookup_insert_eq. simpl.
  destruct (decide (Type_ i ≠ "map")); [done|]. simpl.
  rewrite lookup_delete_eq.
  split; [done|]. intros mk' ?. rewrite lookup_delete_ne by done.
  destruct (mapValue i) as [m|]; simpl; [by destruct (m !! mk')|].
  by rewrite lookup_empty.
Qed.

Lemma MapDelete_MapGet_witness :
  let s := run [OpSet "m" (VStringMap (Some {[ "k" := "v" ]}))] in
  let s1 := (MapDelete s "m" "k").1 in
  MapDelete s "m" "k" = (s1, Ok ()) ∧
  MapGet s1 "m" "k" = (s1, Err "map key k does not exists").
Proof.
  intros s s1.
  assert (MapDelete s "m" "k" = (s1, Ok ())) as Hm by (vm_compute; reflexivity).
  split; [exact Hm|]. exact (proj1 (MapDelete_MapGet s "m" "k" s1 Hm)).
Defined.

(** X18: on a map-typed key, [MapDelete] of a map key that is not there
    succeeds and leaves the store as it is when the map is non-nil; on a
    [nil] map it succeeds too but replaces the map by an empty one, so the
    [Get] that follows writes an empty object where it wrote [null]. *)
Theorem MapDelete_missing s k i mk :
  items s !! k = Some i → Type_ i = "map" →
  (∀ m, mapValue i = Some m → m !! mk = None → MapDelete s k mk = (s, Ok ())) ∧
  (mapValue i = None →
     Get s k = Ok JNull ∧
     (MapDelete s k mk).2 = Ok () ∧
     Get (MapDelete s k mk).1 k = Ok (JObject ∅)).
Proof.
  intros Hi Ht.
  assert (¬ Type_ i ≠ "map") as Ht' by (by intros []).
  unfold MapDelete, Get, checkkey. rewrite Hi.
  destruct (decide (Type_ i ≠ "map")); [done|]. split.
  - intros m Hm Hmk. rewrite Hm. simpl. rewrite delete_id by done.
    f_equal. apply storage_eq; simpl; [|done]. apply insert_id.
    rewrite Hi. f_equal. destruct i; simpl in *; by subst.
  - intros Hm. rewrite Hm, Ht. simpl. rewrite lookup_insert_eq. simpl.
    rewrite Ht. simpl. by rewrite delete_empty, fmap_empty.
Qed.

Lemma MapDelete_missing_witness :
  let s := run [OpSet "m" (VStringMap None)] in
  let i := mkItem "" None None "map" in
  items s !! "m" = Some i ∧
  Get s "m" = Ok JNull ∧
  Get (MapDelete s "m" "a").1 "m" = Ok (JObject ∅).
Proof.
  intros s i.
  assert (items s !! "m" = Some i) as Hi by (vm_compute; reflexivity).
  destruct (MapDelete_missing s "m" i "a" Hi eq_refl) as [_ Hnil].
  destruct (Hnil eq_refl) as (Hbefore & _ & Hafter).
  split; [exact Hi|]. split; [exact Hbefore|exact Hafter].
Defined.

(** * Failures and reads *)

(** X19: an operation that returns an error has not written: for [Set],
    [Append], [Pop], [MapSet] and [MapDelete], a result that is an error
    comes with the store unchanged; [MapGet] never changes the store,
    whatever it returns. *)
Theorem failure_leaves_store s k :
  (∀ v e, (Set_ s k v).2 = Err e → (Set_ s k v).1 = s) ∧
  (∀ v e, (Append s k v).2 = Err e → (Append s k v).1 = s) ∧
  (∀ e, (Pop s k).2 = Err e → (Pop s k).1 = s) ∧
  (∀ mk v e, (MapSet s k mk v).2 = Err e → (MapSet s k mk v).1 = s) ∧
  (∀ mk e, (MapDelete s k mk).2 = Err e → (MapDelete s k mk).1 = s) ∧
  (∀ mk, (MapGet s k mk).1 = s).
Proof.
  unfold Set_, Append, Pop, MapSet, MapDelete, MapGet, checkkey.
  split_and!.
  - intros v e. by destruct (item_of_value v).
  - intros v e. destruct (items s !! k) as [i|]; [|done].
    by destruct (decide _).
  - intros e. destruct (items s !! k) as [i|]; [|done].
    destruct (decide _); [done|]. by destruct (default [] (listValue i) !! _).
  - intros mk v e. destruct (items s !! k) as [i|]; [|done].
    by destruct (decide _).
  - intros mk e. destruct (items s !! k) as [i|]; [|done].
    by destruct (decide _).
  - intros mk. destruct (items s !! k) as [i|]; [|done].
    destruct (decide _); [done|]. destruct (mapValue i) as [m|]; [|done].
    by destruct (m !! mk).
Qed.

Lemma failure_leaves_store_witness :
  let s := run [OpSet "c" (VString "string"); OpSet "b" (VStrings (Some []))] in
  (Append s "c" "x").2 = Err "type string is not list" ∧
  (Append s "c" "x").1 = s ∧
  (Pop s "b").2 = Err "list is empty" ∧ (Pop s "b").1 = s.
Proof.
  intros s.
  destruct (failure_leaves_store s "c") as (_ & Ha & _).
  destruct (failure_leaves_store s "b") as (_ & _ & Hp & _).
  assert ((Append s "c" "x").2 = Err "type string is not list") as H1
    by (vm_compute; reflexivity).
  assert ((Pop s "b").2 = Err "list is empty") as H2 by (vm_compute; reflexivity).
  split; [exact H1|]. split; [exact (Ha _ _ H1)|].
  split; [exact H2|exact (Hp _ H2)].
Defined.

(** X20: on a store that keeps the index invariant, looking up by its own
    name a key that is present and holds no [*] returns that key alone and
    does not panic; a key that holds a [*] is read as a pattern, and the
    answer then still holds the key. *)
Theorem GetIndex_present_key s k :
  index_ok s → is_Some (items s !! k) →
  (¬ has_star k → GetIndex s k = Ret [k]) ∧
  (has_star k → ∃ res, GetIndex s k = Ret res ∧ k ∈ res).
Proof.
  intros (Hs & _ & Hdom) Hk. apply Hdom in Hk. split.
  - intros Hstar. rewrite GetIndex_exact by done.
    rewrite decide_False, decide_True; [done..|].
    intros Hall. rewrite Forall_forall in Hall.
    by apply Hall, str_lt_irrefl in Hk.
  - intros Hstar. unfold GetIndex.
    destruct (decide (k = "*")) as [->|Hne]; [by eexists|].
    rewrite decide_False by (rewrite Split_single; tauto).
    eexists. split; [done|]. apply list_elem_of_filter. split; [|done].
    apply Glob_matches. clear. induction k as [|c k IH]; [constructor|].
    destruct (decide (c = "*"%char)) as [->|Hc].
    + by apply (matches_star k (String "*" "") k).
    + by constructor.
Qed.

Lemma GetIndex_present_key_witness :
  let s := run [OpSet "abc" (VString "v"); OpSet "aaa" (VString "w")] in
  index_ok s ∧ is_Some (items s !! "abc") ∧ ¬ has_star "abc" ∧
  GetIndex s "abc" = Ret ["abc"].
Proof.
  intros s.
  assert (index_ok s) as Hok by (apply (bool_decide_unpack _); vm_compute; exact I).
  assert (is_Some (items s !! "abc")) as Hk by (vm_compute; eexists; reflexivity).
  assert (¬ has_star "abc") as Hstar.
  { intros H. repeat (destruct H as [H|H]; [discriminate|]). exact H. }
  split; [exact Hok|]. split; [exact Hk|]. split; [exact Hstar|].
  exact (proj1 (GetIndex_present_key s "abc" Hok Hk) Hstar).
Defined.

(** X21: on an ascending index, a pattern without [*] is looked up by
    binary search with three outcomes: a panic exactly when every indexed
    key is below the pattern (so always on an empty index), the pattern
    alone exactly when it is indexed, and the empty sequence otherwise. *)
Theorem GetIndex_exact_cases s search :
  StronglySorted str_lt (index s) → ¬ has_star search →
  (GetIndex s search = Panic ↔ Forall (λ k, str_lt k search) (index s)) ∧
  (GetIndex s search = Ret [search] ↔ search ∈ index s) ∧
  (GetIndex s search = Ret [] ↔
     (search ∉ index s) ∧ ¬ Forall (λ k, str_lt k search) (index s)).
Proof.
  intros Hs Hstar. rewrite (GetIndex_exact s search Hs Hstar).
  destruct (decide (Forall _ _)) as [Hall|Hall].
  - assert (search ∉ index s) as Hnin.
    { intros Hin. rewrite Forall_forall in Hall.
      by apply Hall, str_lt_irrefl in Hin. }
    split_and!; split; try done; tauto.
  - destruct (decide (search ∈ index s)); split_and!; split; try done; tauto.
Qed.

Lemma GetIndex_exact_cases_witness :
  let s := mkStorage ∅ ["aaa"; "abc"] in
  StronglySorted str_lt (index s) ∧ ¬ has_star "cba" ∧
  Forall (λ k, str_lt k "cba") (index s) ∧
  GetIndex s "cba" = Panic.
Proof.
  intros s.
  assert (StronglySorted str_lt (index s)) as Hs
    by (apply (bool_decide_unpack _); vm_compute; exact I).
  assert (¬ has_star "cba") as Hstar.
  { intros H. repeat (destruct H as [H|H]; [discriminate|]). exact H. }
  assert (Forall (λ k, str_lt k "cba") (index s)) as Hall
    by (apply (bool_decide_unpack _); vm_compute; exact I).
  split; [exact Hs|]. split; [exact Hstar|]. split; [exact Hall|].
  exact (proj2 (proj1 (GetIndex_exact_cases s "cba" Hs Hstar)) Hall).
Defined.

(** * The command handler *)

Lemma checkkey_Err s k t create s' e :
  checkkey s k t create = (s', Err e) → s' = s ∧ e ≠ "".
Proof.
  unfold checkkey. destruct (items s !! k) as [i|].
  - destruct (decide _); intros [= <- <-]; by split.
  - destruct create; intros [= <- <-]; by split.
Qed.

(** The storage operations the handler calls fail with a message and
    without a write. *)
Lemma Append_Err s k v s' e : Append s k v = (s', Err e) → s' = s ∧ e ≠ "".
Proof.
  unfold Append. destruct (checkkey s k "list" true) as [s1 [i|e1]] eqn:Hck;
    [done|]. intros [= <- <-]. by eapply checkkey_Err.
Qed.

Lemma Pop_Err s k s' e : Pop s k = (s', Err e) → s' = s ∧ e ≠ "".
Proof.
  unfold Pop. destruct (checkkey s k "list" false) as [s1 [i|e1]] eqn:Hck.
  - unfold checkkey in Hck. destruct (items s !! k); [|done].
    destruct (decide _); [done|]. simplify_eq.
    destruct (default [] (listValue i) !! _); [done|]. by intros [= <- <-].
  - intros [= <- <-]. by eapply checkkey_Err.
Qed.

Lemma MapGet_Err s k mk s' e : MapGet s k mk = (s', Err e) → s' = s ∧ e ≠ "".
Proof.
  unfold MapGet. destruct (checkkey s k "map" false) as [s1 [i|e1]] eqn:Hck.
  - unfold checkkey in Hck. destruct (items s !! k); [|done].
    destruct (decide _); [done|]. simplify_eq.
    destruct (mapValue i) as [m|]; [destruct (m !! mk)|];
      intros [= <- <-]; by split.
  - intros [= <- <-]. by eapply checkkey_Err.
Qed.

Lemma MapSet_Err s k mk v s' e :
  MapSet s k mk v = (s', Err e) → s' = s ∧ e ≠ "".
Proof.
  unfold MapSet. destruct (checkkey s k "map" true) as [s1 [i|e1]] eqn:Hck;
    [done|]. intros [= <- <-]. by eapply checkkey_Err.
Qed.

Lemma MapDelete_Err s k mk s' e :
  MapDelete s k mk = (s', Err e) → s' = s ∧ e ≠ "".
Proof.
  unfold MapDelete. destruct (checkkey s k "map" false) as [s1 [i|e1]] eqn:Hck;
    [done|]. intros [= <- <-]. by eapply checkkey_Err.
Qed.

(** X22: [append] and [mapset] take a string: with any other value the
    handler answers 400 with "value must be a string" before it calls the
    store, which is left as it was. *)
Theorem Cmd_value_must_be_string s key request :
  reqCmd request = "append" ∨ reqCmd request = "mapset" →
  is_string (reqValue request) = false →
  Cmd s key request =
    Ret (s, (StatusBadRequest, mkResponse "value must be a string" None)).
Proof.
  intros Hcmd Hv. unfold Cmd. rewrite decide_True by done.
  by destruct (reqValue request).
Qed.

Lemma Cmd_value_must_be_string_witness :
  let request := mkRequest "append" "" (VSlice (Some [VString "x"])) in
  (reqCmd request = "append" ∨ reqCmd request = "mapset") ∧
  is_string (reqValue request) = false ∧
  Cmd New "l" request =
    Ret (New, (400, mkResponse "value must be a string" None)).
Proof.
  intros request.
  assert (reqCmd request = "append" ∨ reqCmd request = "mapset") as Hc
    by (left; reflexivity).
  split; [exact Hc|]. split; [reflexivity|].
  exact (Cmd_value_must_be_string New "l" request Hc eq_refl).
Defined.

(** X23: a reply of the handler is either 200 with an empty error text, or
    400 with an error text, no value, and the store as it was before the
    request. *)
Theorem Cmd_status s key request s' code r :
  Cmd s key request = Ret (s', (code, r)) →
  (code = StatusOK ∧ respError r = "") ∨
  (code = StatusBadRequest ∧ respError r ≠ "" ∧ respValue r = None ∧ s' = s).
Proof.
  unfold Cmd.
  destruct (if decide (_ ∨ _) then _ else _) as [value|]; [|intros [= <- <- <-]; by right].
  repeat match goal with
  | |- context [decide (reqCmd request = ?c)] =>
      destruct (decide (reqCmd request = c)) as [_|_]
  end.
  - destruct (Append s key value) as [s1 [?|e]] eqn:Hop; simpl;
      intros [= <- <- <-]; [by left|right].
    apply Append_Err in Hop as [-> ?]. by split_and!.
  - destruct (Pop s key) as [s1 [?|e]] eqn:Hop; simpl;
      intros [= <- <- <-]; [by left|right].
    apply Pop_Err in Hop as [-> ?]. by split_and!.
  - destruct (MapGet s key _) as [s1 [?|e]] eqn:Hop; simpl;
      intros [= <- <- <-]; [by left|right].
    apply MapGet_Err in Hop as [-> ?]. by split_and!.
  - destruct (MapSet s key _ value) as [s1 [?|e]] eqn:Hop; simpl;
      intros [= <- <- <-]; [by left|right].
    apply MapSet_Err in Hop as [-> ?]. by split_and!.
  - destruct (MapDelete s key _) as [s1 [?|e]] eqn:Hop; simpl;
      intros [= <- <- <-]; [by left|right].
    apply MapDelete_Err in Hop as [-> ?]. by split_and!.
  - destruct (GetIndex s _); [|done]. simpl. intros [= <- <- <-]. by left.
  - simpl. intros [= <- <- <-]. right. by split_and!.
Qed.

Lemma Cmd_status_witness :
  let s := run [OpSet "c" (VString "string")] in
  let request := mkRequest "pop" "" VNil in
  let r := mkResponse "type string is not list" None in
  Cmd s "c" request = Ret (s, (400, r)) ∧
  (400 = StatusOK ∧ respError r = "" ∨
   400 = StatusBadRequest ∧ respError r ≠ "" ∧ respValue r = None ∧ s = s).
Proof.
  intros s request r.
  assert (Cmd s "c" request = Ret (s, (400, r))) as Hc by (vm_compute; reflexivity).
  split; [exact Hc|]. exact (Cmd_status s "c" request s 400 r Hc).
Defined.

(** X24: the handler keeps the index invariant of the store: whatever the
    request, a reply leaves the index ascending, duplicate-free and equal to
    the keys of the mapping. *)
Theorem Cmd_index_ok s key request s' out :
  index_ok s → Cmd s key request = Ret (s', out) → index_ok s'.
Proof.
  intros Hok. unfold Cmd.
  destruct (if decide (_ ∨ _) then _ else _) as [value|]; [|by intros [= <- <-]].
  repeat match goal with
  | |- context [decide (reqCmd request = ?c)] =>
      destruct (decide (reqCmd request = c)) as [_|_]
  end.
  - pose proof (Append_ok s key value Hok) as Hok'.
    destruct (Append s key value) as [s1 [?|e]]; simpl; by intros [= <- <-].
  - pose proof (Pop_ok s key Hok) as Hok'.
    destruct (Pop s key) as [s1 [?|e]]; simpl; by intros [= <- <-].
  - pose proof (MapGet_ok s key (reqKey request) Hok) as Hok'.
    destruct (MapGet s key _) as [s1 [?|e]]; simpl; by intros [= <- <-].
  - pose proof (MapSet_ok s key (reqKey request) value Hok) as Hok'.
    destruct (MapSet s key _ value) as [s1 [?|e]]; simpl; by intros [= <- <-].
  - pose proof (MapDelete_ok s key (reqKey request) Hok) as Hok'.
    destruct (MapDelete s key _) as [s1 [?|e]]; simpl; by intros [= <- <-].
  - destruct (GetIndex s _); [|done]. simpl. by intros [= <- <-].
  - simpl. by intros [= <- <-].
Qed.

Lemma Cmd_index_ok_witness :
  let request := mkRequest "mapset" "k" (VString "v") in
  let s' := mkStorage {[ "m" := mkItem "" None (Some {[ "k" := "v" ]}) "map" ]} ["m"] in
  index_ok New ∧
  Cmd New "m" request = Ret (s', (200, mkResponse "" None)) ∧
  index_ok s'.
Proof.
  intros request s'.
  assert (Cmd New "m" request = Ret (s', (200, mkResponse "" None))) as Hc
    by (vm_compute; reflexivity).
  split; [exact index_ok_New|]. split; [exact Hc|].
  exact (Cmd_index_ok New "m" request s' _ index_ok_New Hc).
Defined.

(** X25: the handler panics on one path only: the [index] command whose
    pattern makes [GetIndex] read past the end of the index; so a request
    for an exact name on an empty store ends in a panic, not in a reply. *)
Theorem Cmd_panic s key request :
  (Cmd s key request = Panic ↔
     reqCmd request = "index" ∧ GetIndex s (reqKey request) = Panic) ∧
  Cmd New key (mkRequest "index" "abc" VNil) = Panic.
Proof.
  split; [|done]. unfold Cmd. split.
  - destruct (if decide (_ ∨ _) then _ else _) as [value|]; [|done].
    repeat match goal with
    | |- context [decide (reqCmd request = ?c)] =>
        destruct (decide (reqCmd request = c)) as [?|?]
    end;
    try match goal with
    | |- context [reply ?s ?r] => by destruct r
    | |- context [let '(_, _) := ?op in _] => by destruct op as [? []]
    end.
    by destruct (GetIndex s _).
  - intros [Hc Hp]. rewrite Hc. simpl. by rewrite Hp.
Qed.
